(** * Hamilton function modifiers: decorators that compile functions to DAG nodes

    A shallow embedding of [hamilton/function_modifiers.py].  Python dicts
    that the code only looks up are finite maps ([gmap]); dicts the code
    iterates over are association lists in insertion order.  Raising an
    exception is the [Raise] branch of [Result]. *)

From Stdlib Require Import ZArith String Ascii List Bool Lia DecimalString.
From stdpp Require Import base option gmap strings list fin_maps.

Open Scope string_scope.

(** ** Python values and exceptions *)

Module Py.

(** The scalar (hashable) values that flow through configurations and
    fixed parameter values. *)
Inductive Scalar :=
| SNone
| SBool (b : bool)
| SInt (z : Z)
| SStr (s : string).

#[export] Instance Scalar_eq_dec : EqDecision Scalar.
Proof. solve_decision. Defined.

(** [bool] is a subclass of [int]: [True == 1] and [False == 0]. *)
Definition as_number (v : Scalar) : option Z :=
  match v with
  | SBool b => Some (if b then 1%Z else 0%Z)
  | SInt z => Some z
  | _ => None
  end.

(** Python's [a == b] on scalars. *)
Definition py_eq (a b : Scalar) : bool :=
  match a, b with
  | SNone, SNone => true
  | SStr s, SStr t => String.eqb s t
  | _, _ =>
      match as_number a, as_number b with
      | Some x, Some y => Z.eqb x y
      | _, _ => false
      end
  end.

Lemma py_eq_sym a b : py_eq a b = py_eq b a.
Proof.
  destruct a, b; simpl; try done; try apply Z.eqb_sym.
  apply String.eqb_sym.
Qed.

(** [isinstance(v, str)] *)
Definition is_str (v : Scalar) : bool :=
  match v with SStr _ => true | _ => false end.

(** A value given for a tag, which can be any object: a scalar, or a list
    of scalars, which is not hashable. *)
Inductive TagValue :=
| Plain (v : Scalar)
| ListOf (items : list Scalar).

#[export] Instance TagValue_eq_dec : EqDecision TagValue.
Proof. solve_decision. Defined.

(** [isinstance(value, str)] on the value of a tag. *)
Definition is_str_value (value : TagValue) : bool :=
  match value with
  | Plain v => is_str v
  | ListOf _ => false
  end.

(** [dict.get(key)]: an absent key reads as [None]. *)
Definition dict_get (d : gmap string Scalar) (key : string) : Scalar :=
  default SNone (d !! key).

(** The exception classes that the module raises or lets escape. *)
Inductive Exn :=
| InvalidDecoratorException (msg : string)
| ValueError (msg : string)
| KeyError (key : Scalar)
| TypeError (msg : string)
| AttributeError (msg : string).

Inductive Result (A : Type) :=
| Ok (a : A)
| Raise (e : Exn).
Arguments Ok {A} a.
Arguments Raise {A} e.

Definition bind {A B} (r : Result A) (k : A -> Result B) : Result B :=
  match r with
  | Ok a => k a
  | Raise e => Raise e
  end.


End Py.
Import Py.

#[export] Instance Result_ret : MRet Result := @Ok.
#[export] Instance Result_bind : MBind Result := fun A B k r => bind r k.

(** ** Function objects *)

(** [inspect.Parameter.kind] *)
Inductive ParameterKind :=
| POSITIONAL_ONLY
| POSITIONAL_OR_KEYWORD
| VAR_POSITIONAL
| KEYWORD_ONLY
| VAR_KEYWORD.

#[export] Instance ParameterKind_eq_dec : EqDecision ParameterKind.
Proof. solve_decision. Defined.

Section FunctionObjects.
Context {Ty : Type}.

Record Param := {
  annotation : Ty;
  kind : ParameterKind;
}.

(** What the module reads from (and writes to) a function object:
    [fn.__name__], [fn.__module__], [fn.__doc__],
    [inspect.signature(fn)] and [fn.__code__.co_code]. *)
Record Function := {
  __name__ : string;
  __module__ : string;
  __doc__ : option string;
  parameters : list (string * Param);
  return_annotation : Ty;
  co_code : string;
}.

Definition set_name (fn : Function) (name : string) : Function :=
  {| __name__ := name;
     __module__ := __module__ fn;
     __doc__ := __doc__ fn;
     parameters := parameters fn;
     return_annotation := return_annotation fn;
     co_code := co_code fn |}.
End FunctionObjects.
Arguments Param : clear implicits.
Arguments Function : clear implicits.

(** ** [config]: resolving a function against the configuration *)

Module Config.
Section Config.
Context {Ty : Type}.

(** [hamilton.function_modifiers_base.sanitize_function_name] is imported,
    not defined, by the module. *)
Variable sanitize_function_name : string -> string.

(** Function objects are mutable and passed by reference: the heap maps a
    reference to the current state of the object. *)
Abbreviation ref := nat.
Abbreviation Heap := (gmap nat (Function Ty)).

Record config := {
  does_resolve : gmap string Scalar -> bool;
  target_name : option string;
}.

Definition _get_function_name (self : config) (fn : Function Ty) : string :=
  match target_name self with
  | Some name => name
  | None => sanitize_function_name (__name__ fn)
  end.

(** [config.resolve]: returns [None], or renames [fn] in place and
    returns it. *)
Definition resolve (self : config) (fn : ref)
    (configuration : gmap string Scalar) (h : Heap) : option ref * Heap :=
  if negb (does_resolve self configuration) then (None, h)
  else (Some fn, alter (fun f => set_name f (_get_function_name self f)) fn h).

(** [config.validate] *)
Definition validate (fn : Function Ty) : Result unit :=
  if String.eqb (String.substring (String.length (__name__ fn) - 2) 2 (__name__ fn)) "__"
  then Raise (InvalidDecoratorException
    "Config will always use the portion of the function name before the last __. For example, signups__v2 will map to signups, whereas")
  else Ok tt.

(** [config.when(name, **key_value_pairs)] *)
Definition when (name : option string) (key_value_pairs : list (string * Scalar)) : config :=
  {| does_resolve := fun configuration =>
       forallb (fun '(key, value) => py_eq value (dict_get configuration key)) key_value_pairs;
     target_name := name |}.

(** [config.when_not(name, **key_value_pairs)] *)
Definition when_not (name : option string) (key_value_pairs : list (string * Scalar)) : config :=
  {| does_resolve := fun configuration =>
       forallb (fun '(key, value) => negb (py_eq value (dict_get configuration key))) key_value_pairs;
     target_name := name |}.

(** The first two steps of the pipeline for one function.
    Modelled from the spec: the driver that calls the decorators is in
    [function_modifiers_base], which is not part of the module; section 5
    of the spec has the resolver run first, short-circuiting to no node
    when it signals absent, and otherwise exactly one base node generated
    from the resolved function. *)
Definition base_nodes {N : Type} (generate_node : Function Ty -> N)
    (self : config) (fn : ref) (configuration : gmap string Scalar) (h : Heap) : list N :=
  match resolve self fn configuration h with
  | (Some fn', h') =>
      match h' !! fn' with
      | Some f => [generate_node f]
      | None => []
      end
  | (None, _) => []
  end.

(** The expectation as the specification words it: [configuration[key]]
    exists and equals [value]. *)
Definition expectation_met (configuration : gmap string Scalar) (kv : string * Scalar) : Prop :=
  exists v, configuration !! kv.1 = Some v /\ py_eq v kv.2 = true.

(** The expectation as the code evaluates it:
    [value == configuration.get(key)]. *)
Definition expectation_holds (configuration : gmap string Scalar) (kv : string * Scalar) : Prop :=
  py_eq kv.2 (dict_get configuration kv.1) = true.

Lemma when_does_resolve name kvs configuration :
  does_resolve (when name kvs) configuration = true <->
  Forall (expectation_holds configuration) kvs.
Proof.
  unfold when, expectation_holds; simpl.
  rewrite forallb_forall, Forall_forall.
  split; intros H [k v] Hin.
  - apply (H (k, v)). by apply list_elem_of_In.
  - apply (H (k, v)). by apply list_elem_of_In.
Qed.

Lemma resolve_absent self fn configuration h :
  does_resolve self configuration = false ->
  resolve self fn configuration h = (None, h).
Proof. intros H. unfold resolve. by rewrite H. Qed.

Lemma resolve_present self fn configuration h :
  does_resolve self configuration = true ->
  resolve self fn configuration h =
    (Some fn, alter (fun f => set_name f (_get_function_name self f)) fn h).
Proof. intros H. unfold resolve. by rewrite H. Qed.

(** Whatever [resolve] does, it only touches the object [fn] refers to, and
    of that object only the name. *)
Lemma resolve_frame self fn configuration h r h' :
  resolve self fn configuration h = (r, h') ->
  (forall l, l <> fn -> h' !! l = h !! l) /\
  (forall f', h' !! fn = Some f' ->
     exists f, h !! fn = Some f /\ f' = set_name f (__name__ f')).
Proof.
  unfold resolve. destruct (negb _); intros [= <- <-].
  - split; [done|]. intros f' Hf'. exists f'. split; [done|]. by destruct f'.
  - split.
    + intros l Hl. by rewrite lookup_alter_ne.
    + intros f'. rewrite lookup_alter_eq.
      destruct (h !! fn) as [f|]; [|done]. intros [= <-]. by exists f.
Qed.

(** With expected values other than [None], the expectation the code
    evaluates is the one the specification words. *)
Lemma expectation_holds_met configuration kv :
  kv.2 <> SNone ->
  expectation_holds configuration kv <-> expectation_met configuration kv.
Proof.
  destruct kv as [k v]. unfold expectation_holds, expectation_met, dict_get. simpl.
  intros Hv. destruct (configuration !! k) as [c|] eqn:Hc; simpl.
  - rewrite py_eq_sym. split.
    + intros H. by exists c.
    + by intros (c' & [= <-] & H).
  - split.
    + destruct v as [|[]| |]; simpl; done.
    + by intros (c' & [=] & _).
Qed.

(** C1, as amended: a function decorated with [config.when] resolves, and
    then contributes exactly one base node, if and only if for every
    (key, value) pair [value == configuration.get(key)], where an absent key
    reads as [None]; otherwise [resolve] signals absent, leaves the heap as
    it was, and the function contributes no node. *)
Theorem when_resolves_iff {N : Type} (generate_node : Function Ty -> N)
    name kvs (fn : ref) configuration (h : Heap) :
  (Forall (expectation_holds configuration) kvs ->
     (resolve (when name kvs) fn configuration h).1 = Some fn /\
     (is_Some (h !! fn) ->
        length (base_nodes generate_node (when name kvs) fn configuration h) = 1)) /\
  (~ Forall (expectation_holds configuration) kvs ->
     resolve (when name kvs) fn configuration h = (None, h) /\
     base_nodes generate_node (when name kvs) fn configuration h = []).
Proof.
  split.
  - intros Hall. apply when_does_resolve with (name := name) in Hall.
    unfold base_nodes. rewrite (resolve_present _ _ _ _ Hall). simpl.
    split; [done|]. intros [f Hf]. by rewrite lookup_alter_eq, Hf.
  - intros Hnot.
    assert (does_resolve (when name kvs) configuration = false) as Hf.
    { destruct (does_resolve (when name kvs) configuration) eqn:E; [|done].
      by apply when_does_resolve in E. }
    unfold base_nodes. by rewrite (resolve_absent _ _ _ _ Hf).
Qed.

End Config.

Definition signups_v2 : Function unit :=
  {| __name__ := "signups__v2"; __module__ := "my_functions"; __doc__ := None;
     parameters := []; return_annotation := tt; co_code := "" |}.

Lemma when_resolves_iff_witness :
  (resolve id (when None [("region", SStr "us")]) 0
     {[ "region" := SStr "us" ]} {[ 0 := signups_v2 ]}).1 = Some 0 /\
  length (base_nodes id id (when None [("region", SStr "us")]) 0
     {[ "region" := SStr "us" ]} {[ 0 := signups_v2 ]}) = 1 /\
  resolve id (when None [("region", SStr "us")]) 0
     {[ "region" := SStr "uk" ]} {[ 0 := signups_v2 ]} = (None, {[ 0 := signups_v2 ]}).
Proof.
  pose proof (when_resolves_iff id id None [("region", SStr "us")] 0
                {[ "region" := SStr "us" ]} {[ 0 := signups_v2 ]}) as [Hyes _].
  pose proof (when_resolves_iff id id None [("region", SStr "us")] 0
                {[ "region" := SStr "uk" ]} {[ 0 := signups_v2 ]}) as [_ Hno].
  destruct Hyes as [H1 H2].
  { repeat constructor. }
  destruct Hno as [H3 _].
  { intros H. inversion H as [|? ? Hx _]. vm_compute in Hx. discriminate. }
  split; [exact H1|]. split; [|exact H3].
  apply H2. by eexists.
Defined.

(** C1, as the specification states it, fails: expecting [None] under a key
    the configuration does not have resolves, although [configuration[key]]
    does not exist. *)
Lemma when_none_matches_absent_key :
  ~ ((resolve id (when None [("key", SNone)]) 0 (∅ : gmap string Scalar)
        {[ 0 := signups_v2 ]}).1 = Some 0 <->
     Forall (expectation_met (∅ : gmap string Scalar)) [("key", SNone)]).
Proof.
  intros [H _]. specialize (H eq_refl).
  inversion H as [|? ? (v & Hv & _) _]. simpl in Hv.
  by rewrite lookup_empty in Hv.
Qed.

(** C10 fails on the code: [resolve] renames the function object it was
    given.  Before the call the object at reference 0 is named
    [signups__v2]; after it, the same object is named [signups]. *)
Theorem resolve_mutates_input_function :
  let h : gmap nat (Function unit) := {[ 0 := signups_v2 ]} in
  let '(r, h') := resolve id (when (Some "signups") [("region", SStr "us")]) 0
                    {[ "region" := SStr "us" ]} h in
  r = Some 0 /\
  __name__ <$> h !! 0 = Some "signups__v2" /\
  __name__ <$> h' !! 0 = Some "signups" /\
  h' <> h.
Proof.
  simpl. split; [done|]. split; [done|]. split; [done|].
  intros H. apply (f_equal (fun m => __name__ <$> m !! 0)) in H.
  vm_compute in H. discriminate.
Qed.

End Config.

(** ** Values passed between nodes *)

(** A column label of a dataframe: any hashable, here a scalar or a
    [(name, documentation)] tuple.  The same type describes the entries of
    the [extract_columns] decorator, which are names or such tuples. *)
Inductive Label :=
| LScalar (s : Scalar)
| LTuple (name doc : string).

#[export] Instance Label_eq_dec : EqDecision Label.
Proof. solve_decision. Defined.

Abbreviation LStr s := (LScalar (SStr s)).

(** The part of pandas the module relies on. *)
Module pd.

(** A dataframe: the length of its index and its columns in order. *)
Record DataFrame := {
  index_len : nat;
  columns : list (Label * list Scalar);
}.

(** [label in df] *)
Definition contains (df : DataFrame) (label : Label) : bool :=
  bool_decide (label ∈ (columns df).*1).

Fixpoint find_column (cols : list (Label * list Scalar)) (label : Label)
    : option (list Scalar) :=
  match cols with
  | [] => None
  | (l, d) :: cols' => if decide (l = label) then Some d else find_column cols' label
  end.

(** [df[label]], when the label is a column. *)
Definition getitem (df : DataFrame) (label : Label) : option (list Scalar) :=
  find_column (columns df) label.

Fixpoint assign (cols : list (Label * list Scalar)) (label : Label) (data : list Scalar)
    : list (Label * list Scalar) :=
  match cols with
  | [] => [(label, data)]
  | (l, d) :: cols' =>
      if decide (l = label) then (l, data) :: cols' else (l, d) :: assign cols' label data
  end.

(** [df[label] = value] for a scalar [value], broadcast along the index: an
    existing column is replaced, a new one is appended. *)
Definition setitem (df : DataFrame) (label : Label) (value : Scalar) : DataFrame :=
  {| index_len := index_len df;
     columns := assign (columns df) label (replicate (index_len df) value) |}.

End pd.

Inductive Value :=
| VScalar (s : Scalar)
| VSeries (data : list Scalar)
| VFrame (df : pd.DataFrame).

(** A callable, invoked with positional and keyword arguments. *)
Abbreviation Callable := (list Value -> gmap string Value -> Result Value).

(** [dict.pop(key)] *)
Definition pop {A} (d : gmap string A) (key : string) : Result (A * gmap string A) :=
  match d !! key with
  | Some v => Ok (v, delete key d)
  | None => Raise (KeyError (SStr key))
  end.

(** [d[key]] *)
Definition subscript {A} (d : gmap string A) (key : string) : Result A :=
  match d !! key with
  | Some v => Ok v
  | None => Raise (KeyError (SStr key))
  end.

(** [d[dst] = d.pop(src)]: the right-hand side is evaluated first. *)
Definition move_key {A} (src dst : string) (d : gmap string A) : Result (gmap string A) :=
  '(v, d') ← pop d src; Ok (<[dst := v]> d').

(** A [for] loop whose body updates [d] and may raise. *)
Fixpoint for_each {A B} (body : B -> A -> Result A) (l : list B) (d : A) : Result A :=
  match l with
  | [] => Ok d
  | x :: l' => d' ← body x d; for_each body l' d'
  end.

(** [functools.partial(f, **keywords)]: keywords given at the call override
    the bound ones. *)
Definition partial (f : Callable) (keywords : gmap string Value) : Callable :=
  fun args kwargs => f args (kwargs ∪ keywords).

(** ** Nodes *)

Inductive DependencyType := REQUIRED | OPTIONAL.
Inductive NodeSource := STANDARD | EXTERNAL | PRIOR_RUN.

Section Nodes.
Context {Ty : Type}.

(** Modelled from the spec: [hamilton.node] is not part of the module.  The
    node value object of section 3 of the spec (name, output type,
    documentation, implementation reference, input-dependency map, tag map)
    with the attributes the module reads; as the module destructures it,
    the input-dependency map stores a type and a dependency kind per name. *)
Record Node := {
  name : string;
  type : Ty;
  documentation : string;
  callable : Callable;
  node_source : NodeSource;
  input_types : gmap string (Ty * DependencyType);
  tags : gmap string TagValue;
}.

(** An entry of the [input_types] argument of the constructor: the module
    passes either bare types or the stored pairs. *)
Inductive InputType :=
| Bare (t : Ty)
| Stored (t : Ty * DependencyType).

Definition stored (i : InputType) : Ty * DependencyType :=
  match i with
  | Bare t => (t, REQUIRED)
  | Stored p => p
  end.

(** Modelled from the spec: the constructor [node.Node(name, typ,
    doc_string, callabl, node_source, input_types, tags)] of the absent
    [hamilton.node], called with [input_types]; it stores its arguments, an
    input given as a bare type being a required dependency. *)
Definition Node_ (name_ : string) (typ : Ty) (doc_string : string) (callabl : Callable)
    (node_source_ : NodeSource) (input_types_ : gmap string InputType)
    (tags_ : gmap string TagValue) : Node :=
  {| name := name_;
     type := typ;
     documentation := doc_string;
     callable := callabl;
     node_source := node_source_;
     input_types := stored <$> input_types_;
     tags := tags_ |}.

(** Modelled from the spec: the same constructor called without
    [input_types]; the input-dependency map is then derived from the
    signature of the callable, here the parameter
    [signature_input_types]. *)
Definition Node_from_signature
    (signature_input_types : Callable -> gmap string (Ty * DependencyType))
    (name_ : string) (typ : Ty) (doc_string : string) (callabl : Callable)
    (tags_ : gmap string TagValue) : Node :=
  {| name := name_;
     type := typ;
     documentation := doc_string;
     callable := callabl;
     node_source := STANDARD;
     input_types := signature_input_types callabl;
     tags := tags_ |}.

(** [get_default_tags]: the name of the module that defines the function. *)
Definition get_default_tags (fn : Function Ty) : gmap string TagValue :=
  {[ "module" := Plain (SStr (__module__ fn)) ]}.

(** [{key: value for key, (value, _) in input_types.items()}] *)
Definition bare_types (its : gmap string (Ty * DependencyType)) : gmap string InputType :=
  (fun p => Bare p.1) <$> its.

End Nodes.
Arguments Node : clear implicits.
Arguments InputType : clear implicits.

(** ** [parametrized]: one node per fixed value of a parameter *)

Module Parametrized.
Section Parametrized.
Context {Ty : Type}.

Record parametrized := {
  parameter : string;
  assigned_output : list ((string * string) * Value);
}.

(** The keys of the [assigned_output] argument are checked to be tuples. *)
Fixpoint tuple_keys (l : list (Label * Value)) : Result (list ((string * string) * Value)) :=
  match l with
  | [] => Ok []
  | (LTuple node_name node_doc, value) :: l' =>
      rest ← tuple_keys l'; Ok (((node_name, node_doc), value) :: rest)
  | (LScalar _, _) :: _ =>
      Raise (InvalidDecoratorException
        "assigned_output key is incorrect. The parameterized decorator needs a dict of [name, doc string] -> value to function.")
  end.

(** [parametrized.__init__] *)
Definition init (parameter_ : string) (assigned_output_ : list (Label * Value)) : Result parametrized :=
  keyed ← tuple_keys assigned_output_;
  Ok {| parameter := parameter_; assigned_output := keyed |}.

(** [parametrized.validate] *)
Definition validate (self : parametrized) (fn : Function Ty) : Result unit :=
  if bool_decide (parameter self ∈ (parameters fn).*1) then Ok tt
  else Raise (InvalidDecoratorException
    ("Annotation is invalid -- no such parameter " +:+ parameter self +:+ " in function " +:+ __name__ fn)).

(** [parametrized.expand_node] *)
Definition expand_node (self : parametrized) (node_ : Node Ty) : list (Node Ty) :=
  let input_types := input_types node_ in
  map (fun '((node_name, node_doc), value) =>
         Node_ node_name (type node_) node_doc
           (partial (callable node_) {[ parameter self := value ]})
           STANDARD
           (bare_types (filter (fun kv => kv.1 <> parameter self) input_types))
           (tags node_))
      (assigned_output self).

Lemma expand_node_length self node_ :
  length (expand_node self node_) = length (assigned_output self).
Proof. unfold expand_node. by rewrite length_map. Qed.

Lemma expand_node_lookup self node_ i :
  expand_node self node_ !! i =
  (fun '((node_name, node_doc), value) =>
     Node_ node_name (type node_) node_doc
       (partial (callable node_) {[ parameter self := value ]})
       STANDARD
       (bare_types (filter (fun kv => kv.1 <> parameter self) (input_types node_)))
       (tags node_)) <$> assigned_output self !! i.
Proof. unfold expand_node. by rewrite list_lookup_fmap. Qed.

(** C2: [parametrized.expand_node] produces exactly one node per entry of
    the assignment map, in order.  The node of entry
    [(name, doc) -> value] has that name and documentation and the output
    type of the original node; its input-dependency map lacks the target
    parameter and has every other input name with its type unchanged; its
    implementation is the original one with the target parameter bound to
    [value]. *)
Theorem expand_node_correct (self : parametrized) (node_ : Node Ty) :
  length (expand_node self node_) = length (assigned_output self) /\
  forall i node_name node_doc value,
    assigned_output self !! i = Some ((node_name, node_doc), value) ->
    exists n,
      expand_node self node_ !! i = Some n /\
      name n = node_name /\ documentation n = node_doc /\ type n = type node_ /\
      input_types n !! parameter self = None /\
      (forall key, key <> parameter self ->
         fst <$> input_types n !! key = fst <$> input_types node_ !! key) /\
      callable n = partial (callable node_) {[ parameter self := value ]} /\
      (forall args kwargs, kwargs !! parameter self = None ->
         callable n args kwargs = callable node_ args (<[ parameter self := value ]> kwargs)).
Proof.
  split; [apply expand_node_length|].
  intros i node_name node_doc value Hi.
  eexists. split.
  { rewrite expand_node_lookup, Hi. reflexivity. }
  simpl. repeat split.
  - unfold bare_types. rewrite !lookup_fmap, map_lookup_filter.
    destruct (input_types node_ !! parameter self) as [x|]; simpl; [|done].
    rewrite option_guard_False; [done|]. simpl. by intros H.
  - intros key Hkey. unfold bare_types.
    rewrite !lookup_fmap, map_lookup_filter.
    destruct (input_types node_ !! key) as [x|]; simpl; [|done].
    by rewrite option_guard_True.
  - intros args kwargs Hfree. unfold partial. f_equal.
    rewrite insert_union_singleton_r; done.
Qed.

End Parametrized.
End Parametrized.

(** ** Renaming keys of a dict, one after the other *)

Section MoveKeys.
Context {A : Type}.
Implicit Types (d : gmap string A) (l : list (string * string)).

Definition move_all l d : Result (gmap string A) :=
  for_each (fun '(src, dst) => move_key src dst) l d.

Lemma move_key_ok src dst d v :
  d !! src = Some v -> move_key src dst d = Ok (<[dst := v]> (delete src d)).
Proof. intros H. unfold move_key, pop. by rewrite H. Qed.

Lemma move_key_missing src dst d :
  d !! src = None -> move_key src dst d = Raise (KeyError (SStr src)).
Proof. intros H. unfold move_key, pop. by rewrite H. Qed.

(** When the sources are distinct keys of [d] and none of them is also a
    destination, every move succeeds: sources are gone, destinations are
    there, and every other key is as before. *)
Lemma move_all_spec l d :
  NoDup l.*1 ->
  (forall s, s ∈ l.*1 -> is_Some (d !! s)) ->
  (forall s, s ∈ l.*1 -> s ∉ l.*2) ->
  exists d', move_all l d = Ok d' /\
    (forall k, k ∈ l.*1 -> d' !! k = None) /\
    (forall k, k ∉ l.*1 -> k ∉ l.*2 -> d' !! k = d !! k) /\
    (forall k, k ∈ l.*2 -> is_Some (d' !! k)) /\
    (NoDup l.*2 -> forall s t, (s, t) ∈ l -> d' !! t = d !! s).
Proof.
  revert d. induction l as [|[s t] l IH]; intros d Hnd Hdom Hdisj.
  - exists d. split; [done|]. simpl. split_and!; try done; intros; set_solver.
  - simpl in *. apply NoDup_cons in Hnd as [Hs Hnd].
    destruct (Hdom s) as [v Hv]; [by left|].
    assert (s <> t) as Hst.
    { intros ->. apply (Hdisj t); by left. }
    destruct (IH (<[t := v]> (delete s d))) as (d' & Hrun & Hsrc & Hframe & Hdst & Hval).
    { done. }
    { intros s' Hs'. assert (s' <> s) by (intros ->; done).
      destruct (Hdom s') as [w Hw]; [by right|].
      destruct (decide (t = s')) as [->|Hne].
      - rewrite lookup_insert_eq. by eexists.
      - rewrite lookup_insert_ne, lookup_delete_ne by done. by eexists. }
    { intros s' Hs' Hin. apply (Hdisj s'); by right. }
    assert (t ∉ l.*1) as Htsrc.
    { intros Hin. apply (Hdisj t); [by right|by left]. }
    assert (s ∉ l.*2) as Hsdst.
    { intros Hin. apply (Hdisj s); [by left|by right]. }
    exists d'. split.
    { unfold move_all. simpl. rewrite (move_key_ok _ _ _ _ Hv). exact Hrun. }
    split_and!.
    + intros k [->|Hk]%elem_of_cons; [|by apply Hsrc].
      rewrite Hframe by done.
      by rewrite lookup_insert_ne, lookup_delete_eq.
    + intros k Hk1 Hk2.
      apply not_elem_of_cons in Hk1 as [Hks Hk1].
      apply not_elem_of_cons in Hk2 as [Hkt Hk2].
      rewrite Hframe by done.
      by rewrite lookup_insert_ne, lookup_delete_ne.
    + intros k [->|Hk]%elem_of_cons; [|by apply Hdst].
      destruct (decide (t ∈ l.*2)) as [Hin|Hnin]; [by apply Hdst|].
      rewrite Hframe by done. rewrite lookup_insert_eq. by eexists.
    + intros Hnd2 s' t' Hin. apply NoDup_cons in Hnd2 as [Ht Hnd2].
      apply elem_of_cons in Hin as [[= -> ->]|Hin].
      * rewrite Hframe by done. by rewrite lookup_insert_eq.
      * rewrite (Hval Hnd2 _ _ Hin).
        assert (s' ∈ l.*1) as Hs'.
        { apply list_elem_of_fmap. by exists (s', t'). }
        assert (s' <> s) by (intros ->; done).
        assert (t <> s') by (intros ->; done).
        by rewrite lookup_insert_ne, lookup_delete_ne.
Qed.

End MoveKeys.

(** ** Collecting the nodes of a loop that may raise *)

Section Collect.
Context {A B : Type}.

(** [for x in l: nodes.append(f(x))], stopping at the first exception. *)
Fixpoint collect (f : A -> Result B) (l : list A) : Result (list B) :=
  match l with
  | [] => Ok []
  | x :: l' => y ← f x; ys ← collect f l'; Ok (y :: ys)
  end.

Lemma collect_Forall2 (f : A -> Result B) (P : A -> B -> Prop) l :
  (forall x, x ∈ l -> exists y, f x = Ok y /\ P x y) ->
  exists ys, collect f l = Ok ys /\ Forall2 P l ys.
Proof.
  induction l as [|x l IH]; intros H.
  - exists []. by split.
  - destruct (H x) as (y & Hy & HP); [by left|].
    destruct IH as (ys & Hys & HF).
    { intros x' Hx'. apply H. by right. }
    exists (y :: ys). simpl. rewrite Hy. simpl. rewrite Hys. simpl.
    split; [done|]. by constructor.
Qed.

End Collect.

(** ** [parametrized_input] and [parameterized_inputs]: one node per
    substitution of upstream dependencies *)

Module Substitution.
Section Substitution.
Context {Ty : Type}.

(** [str.format] of the Python runtime, called with keyword arguments. *)
Variable str_format : string -> list (string * string) -> Result string.

(** What the wrapper of [parameterized_inputs] does when it is called with a
    keyword argument named [inputs], which rebinds its keyword-only
    parameter of that name: the wrapper then calls [.items()] on whatever
    value it was given. *)
Variable rebound_inputs : Value -> Callable.

(** *** The singular form *)

Record parametrized_input := {
  parameter : string;
  assigned_output : list (string * (string * string));
}.

(** The values of the [variable_inputs] argument are checked to be tuples. *)
Fixpoint tuple_values (l : list (string * Label)) : Result (list (string * (string * string))) :=
  match l with
  | [] => Ok []
  | (input_column, LTuple node_name node_description) :: l' =>
      rest ← tuple_values l'; Ok ((input_column, (node_name, node_description)) :: rest)
  | (_, LScalar _) :: _ =>
      Raise (InvalidDecoratorException
        "assigned_output key is incorrect. The parameterized decorator needs a dict of input column -> [name, description] to function.")
  end.

(** [parametrized_input.__init__] *)
Definition parametrized_input_init (parameter_ : string) (variable_inputs : list (string * Label))
    : Result parametrized_input :=
  checked ← tuple_values variable_inputs;
  Ok {| parameter := parameter_; assigned_output := checked |}.

(** [parametrized_input.validate] *)
Definition parametrized_input_validate (self : parametrized_input) (fn : Function Ty) : Result unit :=
  if bool_decide (parameter self ∈ (parameters fn).*1) then Ok tt
  else Raise (InvalidDecoratorException
    ("Annotation is invalid -- no such parameter " +:+ parameter self +:+ " in function " +:+ __name__ fn)).

(** A keyword-only parameter with a default, followed by [**kwargs]: a
    keyword argument of that name binds the parameter and does not reach
    [kwargs]. *)
Definition keyword_only (pname : string) (default_ : Value) (kwargs : gmap string Value)
    : Value * gmap string Value :=
  match kwargs !! pname with
  | Some v => (v, delete pname kwargs)
  | None => (default_, kwargs)
  end.

(** [kwargs.pop(key)] for an arbitrary key object; the keys of [kwargs] are
    strings. *)
Definition pop_value (kwargs : gmap string Value) (key : Value)
    : Result (Value * gmap string Value) :=
  match key with
  | VScalar (SStr s) => pop kwargs s
  | VScalar k => Raise (KeyError k)
  | _ => Raise (TypeError "unhashable type")
  end.

(** The wrapper [new_fn] of [parametrized_input.expand_node]. *)
Definition parametrized_input_new_fn (self : parametrized_input) (node_ : Node Ty)
    (input_column : string) : Callable :=
  fun args kwargs =>
    let '(input_column, kwargs) :=
      keyword_only "input_column" (VScalar (SStr input_column)) kwargs in
    '(v, kwargs) ← pop_value kwargs input_column;
    callable node_ args (<[parameter self := v]> kwargs).

(** [parametrized_input.expand_node] *)
Definition parametrized_input_expand_node (self : parametrized_input) (node_ : Node Ty)
    : Result (list (Node Ty)) :=
  let input_types := input_types node_ in
  collect (fun '(input_column, (node_name, node_description)) =>
             specific_inputs ← move_key (parameter self) input_column (bare_types input_types);
             Ok (Node_ node_name (type node_) node_description
                   (parametrized_input_new_fn self node_ input_column)
                   STANDARD specific_inputs (tags node_)))
          (assigned_output self).

(** *** The plural form *)

Definition RESERVED_KWARG : string := "output_name".

Record parameterized_inputs := {
  parametrization : list (string * list (string * string));
}.

(** [parameterized_inputs.__init__] *)
Definition parameterized_inputs_init (parameterization : list (string * list (string * string)))
    : Result parameterized_inputs :=
  match parameterization with
  | [] => Raise (ValueError "Cannot pass empty/None dictionary to parameterized_inputs")
  | _ =>
      _ ← for_each (fun '(output, mappings) (_ : unit) =>
                      match mappings with
                      | [] => Raise (ValueError
                                ("Error, " +:+ output +:+ " has a none/empty dictionary mapping. Please fill it."))
                      | _ => Ok tt
                      end) parameterization tt;
      Ok {| parametrization := parameterization |}
  end.

(** [parameterized_inputs.format_doc_string(doc, output_name, **params)]: a
    key of [params] that is the name of one of the positional parameters
    cannot be passed. *)
Definition format_doc_string (doc : option string) (output_name : string)
    (params : list (string * string)) : Result string :=
  if bool_decide (Exists (fun k => k ∈ params.*1) ["self"; "doc"; "output_name"])
  then Raise (TypeError "format_doc_string() got multiple values for argument")
  else match doc with
       | Some doc => str_format doc ((RESERVED_KWARG, output_name) :: params)
       | None => Raise (AttributeError "'NoneType' object has no attribute 'format'")
       end.

(** The wrapper [new_fn] of [parameterized_inputs.expand_node]. *)
Definition parameterized_inputs_new_fn (node_ : Node Ty) (mapping : list (string * string))
    : Callable :=
  fun args kwargs =>
    match kwargs !! "inputs" with
    | Some v => rebound_inputs v args (delete "inputs" kwargs)
    | None =>
        kwargs ← for_each (fun '(func_param, replacement_param) =>
                             move_key replacement_param func_param) mapping kwargs;
        callable node_ args kwargs
    end.

(** [parameterized_inputs.expand_node] *)
Definition parameterized_inputs_expand_node (self : parameterized_inputs) (node_ : Node Ty)
    : Result (list (Node Ty)) :=
  let input_types := input_types node_ in
  collect (fun '(output_name, mapping) =>
             let node_name := output_name in
             node_description ← format_doc_string (Some (documentation node_)) output_name mapping;
             specific_inputs ←
               for_each (fun '(func_param, replacement_param) =>
                           move_key func_param replacement_param) mapping (bare_types input_types);
             Ok (Node_ node_name (type node_) node_description
                   (parameterized_inputs_new_fn node_ mapping)
                   STANDARD specific_inputs (tags node_)))
          (parametrization self).

(** [parameterized_inputs.validate] *)
Definition parameterized_inputs_validate (self : parameterized_inputs) (fn : Function Ty)
    : Result unit :=
  let func_param_name_set := (parameters fn).*1 in
  let templated :=
    for_each (fun '(output_name, mappings) (_ : unit) =>
                _ ← format_doc_string (__doc__ fn) output_name mappings; Ok tt)
             (parametrization self) tt in
  _ ← match templated with
      | Raise (KeyError _) =>
          Raise (InvalidDecoratorException
            ("Function docstring templating is incorrect. Please fix up the docstring "
               +:+ __module__ fn +:+ "." +:+ __name__ fn +:+ "."))
      | r => r
      end;
  if bool_decide (RESERVED_KWARG ∈ func_param_name_set)
  then Raise (InvalidDecoratorException
    ("Error function " +:+ __module__ fn +:+ "." +:+ __name__ fn +:+ " cannot have `"
       +:+ RESERVED_KWARG +:+ "` as a parameter it is reserved."))
  else
    let missing_params :=
      filter (fun func_name => func_name ∉ func_param_name_set)
             (concat ((fun om => om.2.*1) <$> parametrization self)) in
    match missing_params with
    | [] => Ok tt
    | _ => Raise (InvalidDecoratorException
             ("Annotation is invalid -- No such parameter(s) in function "
                +:+ __module__ fn +:+ "." +:+ __name__ fn +:+ "."))
    end.

(** The renaming of a mapping is well-formed for an input-dependency map:
    the target parameters are distinct inputs of the node, and no name is
    both a target and a substitute. *)
Definition renaming_ok {A} (mapping : list (string * string)) (its : gmap string A) : Prop :=
  NoDup mapping.*1 /\
  (forall f, f ∈ mapping.*1 -> is_Some (its !! f)) /\
  (forall f, f ∈ mapping.*1 -> f ∉ mapping.*2).

Lemma bare_types_is_Some (its : gmap string (Ty * DependencyType)) k :
  is_Some (bare_types its !! k) <-> is_Some (its !! k).
Proof. unfold bare_types. rewrite lookup_fmap. apply fmap_is_Some. Qed.

Lemma stored_is_Some (its : gmap string (InputType Ty)) k :
  is_Some ((stored <$> its) !! k) <-> is_Some (its !! k).
Proof. rewrite lookup_fmap. apply fmap_is_Some. Qed.

Lemma stored_None (its : gmap string (InputType Ty)) k :
  (stored <$> its) !! k = None <-> its !! k = None.
Proof. rewrite lookup_fmap. apply fmap_None. Qed.

(** The singular form: the expansion succeeds once the target parameter is
    an input of the node; the node of an entry whose substitute differs
    from the target depends on the substitute and not on the target; and
    its wrapper passes the value it receives under the substitute name to
    the original implementation under the target name. *)
Definition substitutes_one (self : parametrized_input) (node_ : Node Ty)
    (entry : string * (string * string)) (n : Node Ty) : Prop :=
  let '(input_column, (node_name, _)) := entry in
  name n = node_name /\
  (input_column <> parameter self ->
     is_Some (input_types n !! input_column) /\
     input_types n !! parameter self = None) /\
  (forall args kwargs v,
     kwargs !! "input_column" = None ->
     kwargs !! input_column = Some v ->
     callable n args kwargs =
       callable node_ args (<[parameter self := v]> (delete input_column kwargs))).

Lemma parametrized_input_expand (self : parametrized_input) (node_ : Node Ty) :
  is_Some (input_types node_ !! parameter self) ->
  exists nodes,
    parametrized_input_expand_node self node_ = Ok nodes /\
    Forall2 (substitutes_one self node_) (assigned_output self) nodes.
Proof.
  intros [ty Hty]%bare_types_is_Some.
  apply collect_Forall2. intros [input_column [node_name node_description]] _.
  rewrite (move_key_ok _ _ _ _ Hty). eexists. split; [reflexivity|].
  unfold substitutes_one. simpl. split_and!; [done| |].
  - intros Hne. split.
    + apply stored_is_Some. rewrite lookup_insert_eq. by eexists.
    + apply stored_None. by rewrite lookup_insert_ne, lookup_delete_eq.
  - intros args kwargs v Hfree Hv.
    unfold parametrized_input_new_fn, keyword_only. rewrite Hfree. simpl.
    unfold pop. by rewrite Hv.
Qed.

Lemma swap_move_all {A} (l : list (string * string)) (d : gmap string A) :
  for_each (fun '(func_param, replacement_param) =>
              move_key replacement_param func_param) l d =
  move_all (prod_swap <$> l) d.
Proof.
  unfold move_all. revert d. induction l as [|[f r] l IH]; intros d; [done|].
  simpl. destruct (move_key r f d) as [d'|e]; simpl; [apply IH|done].
Qed.

Lemma fmap_fst_swap (l : list (string * string)) : (prod_swap <$> l).*1 = l.*2.
Proof. induction l as [|[]]; simpl; by f_equal. Qed.

Lemma fmap_snd_swap (l : list (string * string)) : (prod_swap <$> l).*2 = l.*1.
Proof. induction l as [|[]]; simpl; by f_equal. Qed.

(** The plural form: when every mapping is a well-formed renaming and its
    documentation template formats, the expansion succeeds; the node of a
    mapping depends on each substitute and on none of the targets; and
    when the substitutes of the mapping are distinct, its wrapper passes
    the values it receives under the substitute names to the original
    implementation under the target names, other arguments unchanged. *)
Definition substitutes_all (node_ : Node Ty)
    (entry : string * list (string * string)) (n : Node Ty) : Prop :=
  let '(output_name, mapping) := entry in
  name n = output_name /\
  (forall func_param replacement_param,
     (func_param, replacement_param) ∈ mapping ->
     is_Some (input_types n !! replacement_param) /\
     input_types n !! func_param = None) /\
  (NoDup mapping.*2 ->
   forall args kwargs,
     kwargs !! "inputs" = None ->
     (forall r, r ∈ mapping.*2 -> is_Some (kwargs !! r)) ->
     exists kwargs',
       callable n args kwargs = callable node_ args kwargs' /\
       (forall func_param replacement_param,
          (func_param, replacement_param) ∈ mapping ->
          kwargs' !! func_param = kwargs !! replacement_param) /\
       (forall r, r ∈ mapping.*2 -> kwargs' !! r = None) /\
       (forall k, k ∉ mapping.*1 -> k ∉ mapping.*2 -> kwargs' !! k = kwargs !! k)).

Lemma parameterized_inputs_expand (self : parameterized_inputs) (node_ : Node Ty) :
  (forall output_name mapping, (output_name, mapping) ∈ parametrization self ->
     renaming_ok mapping (input_types node_) /\
     exists doc, format_doc_string (Some (documentation node_)) output_name mapping = Ok doc) ->
  exists nodes,
    parameterized_inputs_expand_node self node_ = Ok nodes /\
    Forall2 (substitutes_all node_) (parametrization self) nodes.
Proof.
  intros Hok. apply collect_Forall2. intros [output_name mapping] Hin.
  destruct (Hok _ _ Hin) as ((Hnd & Hdom & Hdisj) & doc & Hdoc).
  rewrite Hdoc. simpl.
  destruct (move_all_spec mapping (bare_types (input_types node_)))
    as (d' & Hrun & Hsrc & _ & Hdst & _); [done| |done|].
  { intros f Hf. apply bare_types_is_Some. by apply Hdom. }
  unfold move_all in Hrun. rewrite Hrun. eexists. split; [reflexivity|].
  unfold substitutes_all. simpl. split_and!; [done| |].
  - intros f r Hfr. split.
    + apply stored_is_Some, Hdst, list_elem_of_fmap. by exists (f, r).
    + apply stored_None, Hsrc, list_elem_of_fmap. by exists (f, r).
  - intros Hnd2 args kwargs Hfree Hargs.
    unfold parameterized_inputs_new_fn. rewrite Hfree, swap_move_all.
    destruct (move_all_spec (prod_swap <$> mapping) kwargs)
      as (k' & Hrun' & Hsrc' & Hframe' & _ & Hval').
    { by rewrite fmap_fst_swap. }
    { intros r. rewrite fmap_fst_swap. apply Hargs. }
    { intros r. rewrite fmap_fst_swap, fmap_snd_swap. intros Hr Hf.
      by apply (Hdisj r). }
    exists k'. rewrite Hrun'. simpl. split_and!; [done| | |].
    + intros f r Hfr. apply Hval'.
      * by rewrite fmap_snd_swap.
      * apply list_elem_of_fmap. by exists (f, r).
    + intros r Hr. apply Hsrc'. by rewrite fmap_fst_swap.
    + intros k Hk1 Hk2. apply Hframe'.
      * by rewrite fmap_fst_swap.
      * by rewrite fmap_snd_swap.
Qed.

(** Where the claim about substitution holds.  A dependency-substitution
    expansion succeeds when its target parameters are inputs of the node
    (and, in the plural form, no name is both a target and a substitute of
    one mapping and the documentation formats).  For every mapping entry
    whose substitute is not also a target, the generated node's
    input-dependency map contains the substitute name and not the target
    parameter name.  Invoked with the substitute names as named arguments
    (in the plural form, the substitutes of the mapping being distinct; in
    both, without an argument that rebinds the wrapper's own keyword
    parameter), the implementation calls the original implementation with
    those values under the target parameter names. *)
Lemma substitution_expand_correct (node_ : Node Ty) :
  (forall self : parametrized_input,
     is_Some (input_types node_ !! parameter self) ->
     exists nodes,
       parametrized_input_expand_node self node_ = Ok nodes /\
       Forall2 (substitutes_one self node_) (assigned_output self) nodes) /\
  (forall self : parameterized_inputs,
     (forall output_name mapping, (output_name, mapping) ∈ parametrization self ->
        renaming_ok mapping (input_types node_) /\
        exists doc,
          format_doc_string (Some (documentation node_)) output_name mapping = Ok doc) ->
     exists nodes,
       parameterized_inputs_expand_node self node_ = Ok nodes /\
       Forall2 (substitutes_all node_) (parametrization self) nodes).
Proof.
  split; intros self H.
  - by apply parametrized_input_expand.
  - by apply parameterized_inputs_expand.
Qed.

End Substitution.
End Substitution.

(** *** Concrete expansions *)

Module SubstitutionExamples.
Import Substitution.

(** A node [f(a, b)] that returns its argument [a]. *)
Definition node_f : Node string :=
  {| name := "f"; type := "int"; documentation := "the value of {a}";
     callable := fun _ kwargs =>
       match kwargs !! "a" with
       | Some v => Ok v
       | None => Raise (TypeError "f() missing 1 required positional argument: 'a'")
       end;
     node_source := STANDARD;
     input_types := {[ "a" := ("int", REQUIRED); "b" := ("str", REQUIRED) ]};
     tags := {[ "module" := Plain (SStr "my_functions") ]} |}.

Definition keep_template : string -> list (string * string) -> Result string :=
  fun doc _ => Ok doc.

Definition no_items : Value -> Callable :=
  fun _ _ _ => Raise (AttributeError "object has no attribute 'items'").

Definition one_input : parametrized_input :=
  {| parameter := "a"; assigned_output := [("a_raw", ("f_raw", "f of the raw input"))] |}.

Definition one_mapping : parameterized_inputs :=
  {| parametrization := [("f_raw", [("a", "a_raw")])] |}.

(** Substituting the input [a] for the parameter [a]. *)
Definition same_name : parametrized_input :=
  {| parameter := "a"; assigned_output := [("a", ("f_same", "f of the same input"))] |}.

(** Swapping the two arguments of [f]. *)
Definition swapped : parameterized_inputs :=
  {| parametrization := [("f_swapped", [("a", "b"); ("b", "a")])] |}.

(** Feeding both arguments of [f] from the one upstream dependency [x]. *)
Definition shared_substitute : parameterized_inputs :=
  {| parametrization := [("f_x", [("a", "x"); ("b", "x")])] |}.

(** The function [f(a: int, b: str) -> int] behind the node [f]. *)
Definition function_f : Function string :=
  {| __name__ := "f"; __module__ := "my_functions";
     __doc__ := Some "the value of {a}";
     parameters := [("a", {| annotation := "int"; kind := POSITIONAL_OR_KEYWORD |});
                    ("b", {| annotation := "str"; kind := POSITIONAL_OR_KEYWORD |})];
     return_annotation := "int"; co_code := "|0S0" |}.

End SubstitutionExamples.

Lemma substitution_expand_correct_witness :
  (exists nodes,
     Substitution.parametrized_input_expand_node SubstitutionExamples.one_input
       SubstitutionExamples.node_f = Ok nodes /\
     Forall2 (Substitution.substitutes_one SubstitutionExamples.one_input
                SubstitutionExamples.node_f)
       (Substitution.assigned_output SubstitutionExamples.one_input) nodes) /\
  (exists nodes,
     Substitution.parameterized_inputs_expand_node SubstitutionExamples.keep_template
       SubstitutionExamples.no_items SubstitutionExamples.one_mapping
       SubstitutionExamples.node_f = Ok nodes /\
     Forall2 (Substitution.substitutes_all SubstitutionExamples.node_f)
       (Substitution.parametrization SubstitutionExamples.one_mapping) nodes).
Proof.
  destruct (Substitution.substitution_expand_correct SubstitutionExamples.keep_template
              SubstitutionExamples.no_items SubstitutionExamples.node_f) as [H1 H2].
  split.
  - apply (H1 SubstitutionExamples.one_input). by eexists.
  - apply (H2 SubstitutionExamples.one_mapping).
    intros output_name mapping [[= -> ->]|[]%elem_of_nil]%elem_of_cons.
    split; [|by eexists]. split_and!.
    + simpl. apply NoDup_singleton.
    + intros f [->|[]%elem_of_nil]%elem_of_cons. by eexists.
    + intros f [->|[]%elem_of_nil]%elem_of_cons.
      intros [[=]|[]%elem_of_nil]%elem_of_cons.
Defined.

(** The expansion of the swap yields one node, which depends on [a] and
    not on [b]. *)
Lemma swapped_inputs :
  match Substitution.parameterized_inputs_expand_node SubstitutionExamples.keep_template
          SubstitutionExamples.no_items SubstitutionExamples.swapped
          SubstitutionExamples.node_f with
  | Ok [n] => input_types n !! "a" = Some ("int", REQUIRED) /\ input_types n !! "b" = None
  | _ => False
  end.
Proof. vm_compute. done. Qed.

(** Substituting [a] for itself yields one node, which depends on [a]. *)
Lemma same_name_inputs :
  match Substitution.parametrized_input_expand_node SubstitutionExamples.same_name
          SubstitutionExamples.node_f with
  | Ok [n] => input_types n !! "a" = Some ("int", REQUIRED)
  | _ => False
  end.
Proof. vm_compute. done. Qed.

(** C3: the claim has the implementation of a generated node, invoked
    with the substitute names as named arguments, call the original
    implementation with those values under the target parameter names.
    The wrapper of [parameterized_inputs] moves each value out of the
    keyword arguments with [pop], one entry after the other: for the
    mapping that feeds both [a] and [b] from [x], which passes validation
    and yields a node that depends on [x] and on neither target, the
    second [pop] finds [x] gone and the call raises [KeyError], where the
    original implementation called with [x]'s value under both names
    returns it. *)
Theorem shared_substitute_wrapper_raises :
  Substitution.parameterized_inputs_validate SubstitutionExamples.keep_template
    SubstitutionExamples.shared_substitute SubstitutionExamples.function_f = Ok tt /\
  (exists n,
     Substitution.parameterized_inputs_expand_node SubstitutionExamples.keep_template
       SubstitutionExamples.no_items SubstitutionExamples.shared_substitute
       SubstitutionExamples.node_f = Ok [n] /\
     name n = "f_x" /\
     is_Some (input_types n !! "x") /\
     input_types n !! "a" = None /\
     input_types n !! "b" = None /\
     callable n [] {[ "x" := VScalar (SInt 5) ]} = Raise (KeyError (SStr "x"))) /\
  callable SubstitutionExamples.node_f []
    {[ "a" := VScalar (SInt 5); "b" := VScalar (SInt 5) ]} = Ok (VScalar (SInt 5)).
Proof.
  split_and!.
  - reflexivity.
  - eexists. split_and!; try reflexivity. by eexists.
  - reflexivity.
Qed.

(** ** Strings: [str.split], [str.join] and formatted values *)

Module Str.

(** [s.split(sep)] for a one-character separator: never the empty list. *)
Fixpoint split (sep : ascii) (s : string) : list string :=
  match s with
  | EmptyString => [""]
  | String c s' =>
      if Ascii.eqb c sep then "" :: split sep s'
      else match split sep s' with
           | x :: rest => String c x :: rest
           | [] => [String c ""]
           end
  end.

(** [sep.join(l)] *)
Fixpoint join (sep : string) (l : list string) : string :=
  match l with
  | [] => ""
  | [x] => x
  | x :: l' => x +:+ sep +:+ join sep l'
  end.

(** [str(v)] *)
Definition str (v : Scalar) : string :=
  match v with
  | SNone => "None"
  | SBool true => "True"
  | SBool false => "False"
  | SInt z => DecimalString.NilZero.string_of_int (Z.to_int z)
  | SStr s => s
  end.

(** [needle in haystack] *)
Definition occurs_in (needle haystack : string) : Prop :=
  exists before after, haystack = before +:+ needle +:+ after.

Lemma append_assoc (a b c : string) : (a +:+ b) +:+ c = a +:+ b +:+ c.
Proof.
  induction a as [|x a IH]; [done|].
  change (String x ((a +:+ b) +:+ c) = String x (a +:+ b +:+ c)). by f_equal.
Qed.

Lemma append_nil_r (a : string) : a +:+ "" = a.
Proof.
  induction a as [|x a IH]; [done|].
  change (String x (a +:+ "") = String x a). by f_equal.
Qed.

Lemma occurs_in_refl s : occurs_in s s.
Proof. exists "", "". simpl. by rewrite append_nil_r. Qed.

Lemma occurs_in_append_l s a b : occurs_in s a -> occurs_in s (a +:+ b).
Proof.
  intros (p & q & ->). exists p, (q +:+ b).
  by rewrite !append_assoc.
Qed.

Lemma occurs_in_append_r s a b : occurs_in s b -> occurs_in s (a +:+ b).
Proof.
  intros (p & q & ->). exists (a +:+ p), q.
  by rewrite !append_assoc.
Qed.

Lemma occurs_in_join sep x l : x ∈ l -> occurs_in x (join sep l).
Proof.
  induction l as [|y l IH]; intros Hin; [by apply elem_of_nil in Hin|].
  apply elem_of_cons in Hin as [->|Hin].
  - destruct l; simpl; [apply occurs_in_refl|].
    apply occurs_in_append_l, occurs_in_refl.
  - destruct l as [|z l]; [by apply elem_of_nil in Hin|].
    change (join sep (y :: z :: l)) with (y +:+ sep +:+ join sep (z :: l)).
    by apply occurs_in_append_r, occurs_in_append_r, IH.
Qed.

Lemma split_nonempty sep s : split sep s <> [].
Proof.
  destruct s as [|c s]; simpl; [done|].
  destruct (Ascii.eqb c sep); [done|]. by destruct (split sep s).
Qed.

Lemma split_empty sep : split sep "" = [""].
Proof. done. Qed.

End Str.

(** ** [tag]: attaching tags to a node *)

Module Tag.

Definition RESERVED_TAG_NAMESPACES : list string :=
  ["hamilton"; "data_quality"; "gdpr"; "ccpa"; "dag"; "module"].

Section Tag.
Context {Ty : Type}.

(** [str.isidentifier] of the Python runtime. *)
Variable isidentifier : string -> bool.

Local Abbreviation node_tags := tags.

Record tag := {
  tags : gmap string TagValue;
}.

(** [d.update(other)]: the entries of [other] win. *)
Definition update (d other : gmap string TagValue) : gmap string TagValue := other ∪ d.

(** [tag.decorate_node] *)
Definition decorate_node (self : tag) (node_ : Node Ty) : Node Ty :=
  let unioned_tags := tags self in
  let unioned_tags := update unioned_tags (node_tags node_) in
  Node_ (name node_) (type node_) (documentation node_) (callable node_)
    (node_source node_) (Stored <$> input_types node_) unioned_tags.

(** [tag._key_allowed] *)
Definition _key_allowed (key : string) : bool :=
  let key_components := Str.split "." key in
  match key_components with
  | [] => false
  | first :: _ =>
      if bool_decide (first ∈ RESERVED_TAG_NAMESPACES) then false
      else forallb isidentifier key_components
  end.

(** [tag._value_allowed] *)
Definition _value_allowed (value : TagValue) : bool :=
  if negb (is_str_value value) then false else true.

Definition offending (kv : string * TagValue) : bool :=
  negb (_key_allowed kv.1) || negb (_value_allowed kv.2).

(** [bad_tags.add((key, value))]: a tuple is hashed through its items,
    and a list cannot be hashed. *)
Definition add (bad_tags : list (string * Scalar)) (key : string) (value : TagValue)
    : Result (list (string * Scalar)) :=
  match value with
  | Plain v => Ok (bad_tags ++ [(key, v)])%list
  | ListOf _ => Raise (TypeError "unhashable type: 'list'")
  end.

Definition invalid_tags_message (bad_tags : list (string * Scalar)) : string :=
  let bad_tags_formatted :=
    Str.join "," ((fun '(key, value) => key +:+ "=" +:+ Str.str value) <$> bad_tags) in
  "The following tags are invalid as tags: " +:+ bad_tags_formatted +:+
  " Tag keys can be split by ., to represent a hierarchy, but each element of the hierarchy must be a valid python identifier. Paths components also cannot be empty. The value can be anything. Note that the following top-level prefixes are reserved as well: ['hamilton', 'data_quality', 'gdpr', 'ccpa', 'dag', 'module']".

(** [tag.validate]: the offending pairs are gathered in a set, iterated in
    an order of its own. *)
Definition validate (self : tag) (fn : Function Ty) : Result unit :=
  bad_tags ← for_each (fun '(key, value) bad_tags =>
                         if offending (key, value) then add bad_tags key value
                         else Ok bad_tags)
                      (map_to_list (tags self)) [];
  match bad_tags with
  | [] => Ok tt
  | _ => Raise (InvalidDecoratorException (invalid_tags_message bad_tags))
  end.

Lemma stored_Stored (its : gmap string (Ty * DependencyType)) :
  stored <$> (Stored <$> its) = its.
Proof.
  rewrite <- map_fmap_compose. apply map_eq. intros k.
  rewrite lookup_fmap. by destruct (its !! k).
Qed.

Lemma decorate_node_tags self node_ key :
  node_tags (decorate_node self node_) !! key =
  match node_tags node_ !! key with
  | Some v => Some v
  | None => tags self !! key
  end.
Proof.
  unfold decorate_node, update. simpl. rewrite lookup_union.
  destruct (node_tags node_ !! key), (tags self !! key); done.
Qed.

(** C4: [tag.decorate_node] returns a node with the name, output type,
    documentation, implementation, source and input-dependency map of its
    input; its tag map is the union of the decorator's tags and the node's
    tags, the node's own tags winning on a common key.  Hence, on a node
    without a tag [x], as is a node that carries the default tags of its
    function, the outer [tag(x="1")] applied after the inner [tag(x="2")]
    leaves [x] equal to ["2"]. *)
Theorem decorate_node_correct (self : tag) (node_ : Node Ty) :
  let n := decorate_node self node_ in
  name n = name node_ /\ type n = type node_ /\
  documentation n = documentation node_ /\ callable n = callable node_ /\
  node_source n = node_source node_ /\ input_types n = input_types node_ /\
  node_tags n = node_tags node_ ∪ tags self /\
  (forall key v, node_tags node_ !! key = Some v -> node_tags n !! key = Some v) /\
  (forall key, node_tags node_ !! key = None -> node_tags n !! key = tags self !! key) /\
  (node_tags node_ !! "x" = None ->
   node_tags (decorate_node {| tags := {[ "x" := Plain (SStr "1") ]} |}
                (decorate_node {| tags := {[ "x" := Plain (SStr "2") ]} |} node_)) !! "x"
   = Some (Plain (SStr "2"))) /\
  (forall fn : Function Ty,
     node_tags node_ = get_default_tags fn ->
     node_tags (decorate_node {| tags := {[ "x" := Plain (SStr "1") ]} |}
                  (decorate_node {| tags := {[ "x" := Plain (SStr "2") ]} |} node_)) !! "x"
     = Some (Plain (SStr "2"))).
Proof.
  assert (node_tags node_ !! "x" = None ->
          node_tags (decorate_node {| tags := {[ "x" := Plain (SStr "1") ]} |}
                       (decorate_node {| tags := {[ "x" := Plain (SStr "2") ]} |} node_)) !! "x"
          = Some (Plain (SStr "2"))) as Hinner.
  { intros Hx. rewrite !decorate_node_tags, Hx. cbn [tags].
    by rewrite lookup_singleton_eq. }
  cbv zeta. split_and!; try reflexivity.
  - apply stored_Stored.
  - intros key v Hv. by rewrite decorate_node_tags, Hv.
  - intros key Hv. by rewrite decorate_node_tags, Hv.
  - exact Hinner.
  - intros fn Hdefault. apply Hinner. rewrite Hdefault.
    unfold get_default_tags. by rewrite lookup_singleton_ne.
Qed.

Lemma offending_false key value :
  offending (key, value) = false <->
  _key_allowed key = true /\ is_str_value value = true.
Proof.
  unfold offending, _value_allowed. simpl.
  destruct (_key_allowed key), (is_str_value value); simpl; intuition congruence.
Qed.

Lemma offending_list key items : offending (key, ListOf items) = true.
Proof. unfold offending, _value_allowed. simpl. apply orb_true_r. Qed.

Lemma key_allowed_iff key :
  isidentifier "" = false ->
  _key_allowed key = true <->
  key <> "" /\
  Forall (fun c => isidentifier c = true) (Str.split "." key) /\
  hd "" (Str.split "." key) ∉ RESERVED_TAG_NAMESPACES.
Proof.
  intros Hempty. unfold _key_allowed.
  destruct (Str.split "." key) as [|first rest] eqn:Hsplit.
  { by apply Str.split_nonempty in Hsplit. }
  simpl hd. case_bool_decide as Hres.
  - split; [done|]. by intros (_ & _ & ?).
  - rewrite forallb_forall, Forall_forall. split.
    + intros Hall. split_and!; [|by intros c Hc; apply Hall, list_elem_of_In|done].
      intros ->. simpl in Hsplit. injection Hsplit as <- <-.
      specialize (Hall "" (or_introl eq_refl)). congruence.
    + intros (_ & Hall & _) c Hc. by apply Hall, list_elem_of_In.
Qed.

(** The loop of [validate] over the tags. *)
Definition gather (l : list (string * TagValue)) (bad_tags : list (string * Scalar))
    : Result (list (string * Scalar)) :=
  for_each (fun '(key, value) bad_tags =>
              if offending (key, value) then add bad_tags key value
              else Ok bad_tags) l bad_tags.

(** The offending pairs of a list of tags whose values are hashable. *)
Fixpoint offending_plain (l : list (string * TagValue)) : list (string * Scalar) :=
  match l with
  | [] => []
  | (key, Plain v) :: l' =>
      if offending (key, Plain v) then (key, v) :: offending_plain l'
      else offending_plain l'
  | (_, ListOf _) :: l' => offending_plain l'
  end.

Lemma gather_plain l bad_tags :
  (forall key items, (key, ListOf items) ∉ l) ->
  gather l bad_tags = Ok (bad_tags ++ offending_plain l)%list.
Proof.
  revert bad_tags. induction l as [|[key [v|items]] l IH]; intros bad_tags Hplain.
  - simpl. by rewrite app_nil_r.
  - assert (forall key items, (key, ListOf items) ∉ l) as Hrest.
    { intros k its Hin. apply (Hplain k its). by right. }
    unfold gather in *. simpl. destruct (offending (key, Plain v)); simpl.
    + rewrite (IH _ Hrest). by rewrite <- app_assoc.
    + by rewrite (IH _ Hrest).
  - destruct (Hplain key items). by left.
Qed.

Lemma gather_unhashable l bad_tags key items :
  (key, ListOf items) ∈ l ->
  gather l bad_tags = Raise (TypeError "unhashable type: 'list'").
Proof.
  revert bad_tags. induction l as [|[k [v|its]] l IH]; intros bad_tags Hin.
  - by apply elem_of_nil in Hin.
  - apply elem_of_cons in Hin as [[=]|Hin].
    unfold gather in *. simpl. destruct (offending (k, Plain v)); simpl; by apply IH.
  - unfold gather. simpl. by rewrite offending_list.
Qed.

Lemma offending_plain_elem l key value :
  (key, value) ∈ offending_plain l <->
  (key, Plain value) ∈ l /\ offending (key, Plain value) = true.
Proof.
  induction l as [|[k [v|its]] l IH]; simpl.
  - split; [by intros ?%elem_of_nil|by intros [?%elem_of_nil _]].
  - destruct (offending (k, Plain v)) eqn:Hoff.
    + rewrite !elem_of_cons, IH. split.
      * intros [[= -> ->]|[? ?]]; [by split; [left|]|by split; [right|]].
      * intros [[[= -> ->]|?] ?]; [by left|by right].
    + rewrite elem_of_cons, IH. split.
      * intros [? ?]. by split; [right|].
      * intros [[[= -> ->]|?] ?]; [congruence|done].
  - rewrite elem_of_cons, IH. split.
    + intros [? ?]. by split; [right|].
    + intros [[[=]|?] ?]. done.
Qed.

(** Every value of the decorator's tags can be hashed. *)
Definition all_hashable (self : tag) : Prop :=
  forall key items, tags self !! key <> Some (ListOf items).

Lemma hashable_or_not (self : tag) :
  all_hashable self \/ exists key items, tags self !! key = Some (ListOf items).
Proof.
  assert (forall l : list (string * TagValue),
            (forall key items, (key, ListOf items) ∉ l) \/
            (exists key items, (key, ListOf items) ∈ l)) as Hlist.
  { induction l as [|[k [v|its]] l [IH|(key & items & IH)]].
    - left. by intros key items ?%elem_of_nil.
    - left. intros key items [[=]|Hin]%elem_of_cons. by apply (IH key items).
    - right. exists key, items. by right.
    - right. exists k, its. by left.
    - right. exists k, its. by left. }
  destruct (Hlist (map_to_list (tags self))) as [Hall|(key & items & Hin)].
  - left. intros key items Hkv. apply (Hall key items). by apply elem_of_map_to_list.
  - right. exists key, items. by apply elem_of_map_to_list.
Qed.

Lemma validate_hashable self fn :
  all_hashable self ->
  validate self fn =
  match offending_plain (map_to_list (tags self)) with
  | [] => Ok tt
  | bad_tags => Raise (InvalidDecoratorException (invalid_tags_message bad_tags))
  end.
Proof.
  intros Hall. unfold validate. fold (gather (map_to_list (tags self)) []).
  rewrite gather_plain; [simpl; by destruct (offending_plain _)|].
  intros key items Hin%elem_of_map_to_list. by apply (Hall key items).
Qed.

Lemma validate_unhashable self fn key items :
  tags self !! key = Some (ListOf items) ->
  validate self fn = Raise (TypeError "unhashable type: 'list'").
Proof.
  intros Hin%elem_of_map_to_list. unfold validate.
  fold (gather (map_to_list (tags self)) []).
  by rewrite (gather_unhashable _ _ _ _ Hin).
Qed.

Lemma bad_tags_elem self key value :
  (key, value) ∈ offending_plain (map_to_list (tags self)) <->
  tags self !! key = Some (Plain value) /\ offending (key, Plain value) = true.
Proof. by rewrite offending_plain_elem, elem_of_map_to_list. Qed.

(** Where the claim about [tag.validate] holds.  Validation passes
    exactly when every key is non-empty, splits at dots into valid
    identifiers the first of which is not reserved, and every value is a
    string.  When every value can be hashed, a tag whose key has a
    reserved first component makes validation fail with the
    invalid-decorator error, and every failure is one invalid-decorator
    error whose message names every offending [key=value] pair. *)
Lemma tag_validate_hashable (self : tag) (fn : Function Ty) :
  isidentifier "" = false ->
  (validate self fn = Ok tt <->
   forall key value,
     tags self !! key = Some value ->
     key <> "" /\
     Forall (fun c => isidentifier c = true) (Str.split "." key) /\
     (hd "" (Str.split "." key) ∉ RESERVED_TAG_NAMESPACES) /\
     is_str_value value = true) /\
  (all_hashable self ->
   (forall key value,
      tags self !! key = Some value ->
      hd "" (Str.split "." key) ∈ RESERVED_TAG_NAMESPACES ->
      exists msg, validate self fn = Raise (InvalidDecoratorException msg)) /\
   (validate self fn <> Ok tt ->
    exists bad_tags,
      validate self fn = Raise (InvalidDecoratorException (invalid_tags_message bad_tags)) /\
      (forall key value,
         (key, value) ∈ bad_tags <->
         tags self !! key = Some (Plain value) /\
         (_key_allowed key = false \/ is_str value = false)) /\
      (forall key value,
         (key, value) ∈ bad_tags ->
         Str.occurs_in (key +:+ "=" +:+ Str.str value) (invalid_tags_message bad_tags)))).
Proof.
  intros Hempty. split.
  - destruct (hashable_or_not self) as [Hall|(key & items & Hkv)].
    + rewrite (validate_hashable _ _ Hall).
      assert (match offending_plain (map_to_list (tags self)) with
              | [] => Ok tt
              | bad_tags => Raise (InvalidDecoratorException (invalid_tags_message bad_tags))
              end = Ok tt <->
              offending_plain (map_to_list (tags self)) = []) as ->.
      { destruct (offending_plain _); split; done. }
      split.
      * intros Hnil key [value|items] Hkv; [|by destruct (Hall key items)].
        destruct (offending (key, Plain value)) eqn:Hoff.
        { assert ((key, value) ∈ offending_plain (map_to_list (tags self))) as Hin
            by by apply bad_tags_elem.
          rewrite Hnil in Hin. by apply elem_of_nil in Hin. }
        apply offending_false in Hoff as [Hkey Hval].
        apply (key_allowed_iff _ Hempty) in Hkey as (? & ? & ?). done.
      * intros Hok.
        destruct (offending_plain (map_to_list (tags self))) as [|[key value] bad] eqn:Hbad;
          [done|].
        assert ((key, value) ∈ offending_plain (map_to_list (tags self))) as Hin.
        { rewrite Hbad. by left. }
        apply bad_tags_elem in Hin as [Hkv Hoff].
        destruct (Hok _ _ Hkv) as (Hne & Hids & Hres & Hstr).
        assert (offending (key, Plain value) = false) as Hno.
        { apply offending_false. split; [|done]. by apply (key_allowed_iff _ Hempty). }
        congruence.
    + rewrite (validate_unhashable _ _ _ _ Hkv). split; [done|].
      intros Hok. by destruct (Hok _ _ Hkv) as (_ & _ & _ & ?).
  - intros Hall. rewrite (validate_hashable _ _ Hall). split.
    + intros key [value|items] Hkv Hres; [|by destruct (Hall key items)].
      destruct (offending_plain (map_to_list (tags self))) as [|b bad] eqn:Hbad;
        [|by eexists].
      assert ((key, value) ∈ offending_plain (map_to_list (tags self))) as Hin.
      { apply bad_tags_elem. split; [done|]. unfold offending, _key_allowed. simpl.
        destruct (Str.split "." key) as [|first rest]; [done|]. simpl in Hres.
        by rewrite bool_decide_eq_true_2. }
      rewrite Hbad in Hin. by apply elem_of_nil in Hin.
    + intros Hfail. exists (offending_plain (map_to_list (tags self))).
      split_and!.
      * by destruct (offending_plain _).
      * intros key value. rewrite bad_tags_elem.
        unfold offending, _value_allowed. simpl.
        destruct (_key_allowed key), (is_str value); simpl; intuition congruence.
      * intros key value Hin. unfold invalid_tags_message.
        apply Str.occurs_in_append_r, Str.occurs_in_append_l.
        apply Str.occurs_in_join.
        apply list_elem_of_fmap. by exists (key, value).
Qed.

(** C9: the claim has validation reject a tag whose value is not a plain
    string with a single invalid-decorator error that names every
    offending pair, whatever the value.  For a value that cannot be
    hashed, a list, [tag.validate] raises [TypeError] instead, from adding
    the pair to the set of bad tags: so on [tag(owner=['a', 'b'])], and on
    the reserved key of [tag(module=['a'])]. *)
Theorem tag_validate_unhashable_value (fn : Function Ty) :
  (forall (self : tag) key items,
     tags self !! key = Some (ListOf items) ->
     _value_allowed (ListOf items) = false /\
     validate self fn = Raise (TypeError "unhashable type: 'list'") /\
     forall msg, validate self fn <> Raise (InvalidDecoratorException msg)) /\
  validate {| tags := {[ "owner" := ListOf [SStr "a"; SStr "b"] ]} |} fn
    = Raise (TypeError "unhashable type: 'list'") /\
  validate {| tags := {[ "module" := ListOf [SStr "a"] ]} |} fn
    = Raise (TypeError "unhashable type: 'list'").
Proof.
  assert (forall (self : tag) key items,
            tags self !! key = Some (ListOf items) ->
            validate self fn = Raise (TypeError "unhashable type: 'list'")) as Hraise.
  { intros self key items Hkv. by apply (validate_unhashable self fn key items). }
  split_and!.
  - intros self key items Hkv. split; [done|].
    rewrite (Hraise self key items Hkv). split; [done|]. by intros msg.
  - apply (Hraise _ "owner" [SStr "a"; SStr "b"]). simpl. apply lookup_singleton_eq.
  - apply (Hraise _ "module" [SStr "a"]). simpl. apply lookup_singleton_eq.
Qed.

End Tag.
End Tag.

(** ** [extract_columns]: one node per column of a dataframe *)

Module ExtractColumns.
Section ExtractColumns.
Context {Ty : Type}.

(** [pandas.DataFrame] and [pandas.Series] as types, the builtin
    [issubclass], which raises [TypeError] when an argument is not a
    class, and [str] of the column index of a dataframe. *)
Variables pd_DataFrame pd_Series : Ty.
Variable issubclass : Ty -> Ty -> Result bool.
Variable str_Index : list Label -> string.
Variable repr_type : Ty -> string.

(** What the node constructor derives from the signature of a callable. *)
Variable signature_input_types : Callable -> gmap string (Ty * DependencyType).

(** A column to extract: a name, or a tuple of name and documentation. *)
Inductive Column :=
| Name (column : string)
| Documented (column doc_string : string).

(** The column as an object: what [col in df] and [df[col] = value] see. *)
Definition as_label (col : Column) : Label :=
  match col with
  | Name column => LStr column
  | Documented column doc_string => LTuple column doc_string
  end.

Record extract_columns := {
  columns : list Column;
  fill_with : Scalar;
}.

(** The positional arguments of the decorator: columns, or by mistake a
    list as the first of them. *)
Inductive Arguments_ :=
| Columns (columns : list Column)
| ListPassed (first : list Column) (rest : list Column).

(** [extract_columns.__init__] *)
Definition init (columns_ : Arguments_) (fill_with_ : Scalar) : Result extract_columns :=
  match columns_ with
  | Columns [] => Raise (InvalidDecoratorException
      "Error empty arguments passed to extract_columns decorator.")
  | ListPassed _ _ => Raise (InvalidDecoratorException
      "Error list passed in. Please `*` in front of it to expand it.")
  | Columns columns_ => Ok {| columns := columns_; fill_with := fill_with_ |}
  end.

(** [extract_columns.validate] *)
Definition validate (fn : Function Ty) : Result unit :=
  let output_type := return_annotation fn in
  is_subclass ← issubclass output_type pd_DataFrame;
  if negb is_subclass
  then Raise (InvalidDecoratorException
    ("For extracting columns, output type must be pandas dataframe, not: " +:+ repr_type output_type))
  else Ok tt.

(** The values the functions below handle are dataframes; on any other
    value [in] and item assignment are taken to raise. *)
Definition as_frame (v : Value) : Result pd.DataFrame :=
  match v with
  | VFrame df => Ok df
  | _ => Raise (TypeError "not a dataframe")
  end.

(** The loop of [df_generator] over [self.columns]. *)
Definition fill_missing (self : extract_columns) (df_generated : pd.DataFrame) : pd.DataFrame :=
  foldl (fun df col =>
           if negb (pd.contains df (as_label col))
           then pd.setitem df (as_label col) (fill_with self)
           else df)
        df_generated (columns self).

(** The wrapper [df_generator] of [extract_columns.expand_node]. *)
Definition df_generator (self : extract_columns) (fn : Callable) : Callable :=
  fun args kwargs =>
    df_generated ← fn args kwargs;
    if bool_decide (fill_with self <> SNone)
    then df ← as_frame df_generated; Ok (VFrame (fill_missing self df))
    else Ok df_generated.

(** A parameter with a default that can be given by position or by
    keyword, followed by [**kwargs]. *)
Definition positional_or_keyword (pname : string) (default_ : Value)
    (args : list Value) (kwargs : gmap string Value) : Result (Value * gmap string Value) :=
  match args, kwargs !! pname with
  | [], None => Ok (default_, kwargs)
  | [], Some v => Ok (v, delete pname kwargs)
  | [v], None => Ok (v, kwargs)
  | [_], Some _ => Raise (TypeError "got multiple values for argument")
  | _, _ => Raise (TypeError "takes 1 positional argument but more were given")
  end.

(** An object used as a column label has to be hashable. *)
Definition to_label (v : Value) : Result Label :=
  match v with
  | VScalar s => Ok (LScalar s)
  | _ => Raise (TypeError "unhashable type")
  end.

Definition label_str (l : Label) : string :=
  match l with
  | LScalar s => Str.str s
  | LTuple a b => "('" +:+ a +:+ "', '" +:+ b +:+ "')"
  end.

Definition no_such_column (column_to_extract : Label) (node_name : string)
    (df : pd.DataFrame) : string :=
  "No such column: " +:+ label_str column_to_extract +:+ " produced by " +:+ node_name
    +:+ ". It only produced " +:+ str_Index (pd.columns df).*1.

(** The function [extractor_fn] of [extract_columns.expand_node]. *)
Definition extractor_fn (node_ : Node Ty) (column : string) : Callable :=
  fun args kwargs =>
    '(column_to_extract, kwargs) ←
      positional_or_keyword "column_to_extract" (VScalar (SStr column)) args kwargs;
    df ← subscript kwargs (name node_);
    df ← as_frame df;
    column_to_extract ← to_label column_to_extract;
    if negb (pd.contains df column_to_extract)
    then Raise (InvalidDecoratorException (no_such_column column_to_extract (name node_) df))
    else match pd.getitem df column_to_extract with
         | Some data => Ok (VSeries data)
         | None => Raise (KeyError (SStr (label_str column_to_extract)))
         end.

(** [extract_columns.expand_node] *)
Definition expand_node (self : extract_columns) (node_ : Node Ty) : list (Node Ty) :=
  let fn := callable node_ in
  let base_doc := documentation node_ in
  let output_nodes :=
    [Node_from_signature signature_input_types (name node_) pd_DataFrame base_doc
       (df_generator self fn) (tags node_)] in
  output_nodes ++
  map (fun column =>
         let '(column, doc_string) :=
           match column with
           | Documented column doc_string => (column, doc_string)
           | Name column => (column, base_doc)
           end in
         Node_ column pd_Series doc_string (extractor_fn node_ column) STANDARD
           {[ name node_ := Bare pd_DataFrame ]} (tags node_))
      (columns self).

Lemma find_column_contains cols label :
  label ∈ cols.*1 -> is_Some (pd.find_column cols label).
Proof.
  induction cols as [|[l d] cols IH]; simpl; intros Hin.
  - by apply elem_of_nil in Hin.
  - destruct (decide (l = label)); [by eexists|].
    apply elem_of_cons in Hin as [->|Hin]; [done|]. by apply IH.
Qed.

Lemma assign_labels cols label data l :
  l ∈ (pd.assign cols label data).*1 <-> l = label \/ l ∈ cols.*1.
Proof.
  induction cols as [|[l' d] cols IH]; simpl.
  - rewrite list_elem_of_singleton. split; [by left|].
    intros [?|Hin]; [done|]. by apply elem_of_nil in Hin.
  - destruct (decide (l' = label)) as [->|Hne]; simpl.
    + rewrite !elem_of_cons. tauto.
    + rewrite !elem_of_cons, IH. tauto.
Qed.

Lemma contains_setitem df label value l :
  pd.contains (pd.setitem df label value) l = true <->
  l = label \/ pd.contains df l = true.
Proof.
  unfold pd.contains, pd.setitem. simpl.
  rewrite !bool_decide_eq_true. apply assign_labels.
Qed.

Lemma fill_missing_keeps self df l :
  pd.contains df l = true -> pd.contains (fill_missing self df) l = true.
Proof.
  unfold fill_missing. revert df.
  induction (columns self) as [|col cols IH]; intros df Hl; simpl; [done|].
  apply IH. destruct (negb _); [|done].
  apply contains_setitem. by right.
Qed.

(** The filler creates the column labelled by the entry itself. *)
Lemma fill_missing_inserts self df col :
  col ∈ columns self -> pd.contains (fill_missing self df) (as_label col) = true.
Proof.
  unfold fill_missing. revert df.
  induction (columns self) as [|c cols IH]; intros df Hin; simpl.
  - by apply elem_of_nil in Hin.
  - apply elem_of_cons in Hin as [<-|Hin]; [|by apply IH].
    apply (fill_missing_keeps {| columns := cols; fill_with := fill_with self |}).
    destruct (pd.contains df (as_label col)) eqn:Hc; simpl; [done|].
    apply contains_setitem. by left.
Qed.

(** Without the column in the record, the extractor raises the
    invalid-decorator error whose message names the column and the columns
    the record has. *)
Lemma extractor_fn_missing_column (node_ : Node Ty) (column : string) kwargs df :
  kwargs !! "column_to_extract" = None ->
  kwargs !! name node_ = Some (VFrame df) ->
  pd.contains df (LStr column) = false ->
  extractor_fn node_ column [] kwargs =
    Raise (InvalidDecoratorException (no_such_column (LStr column) (name node_) df)) /\
  Str.occurs_in column (no_such_column (LStr column) (name node_) df) /\
  Str.occurs_in (str_Index (pd.columns df).*1) (no_such_column (LStr column) (name node_) df).
Proof.
  intros Hfree Hdf Hmiss. split_and!.
  - unfold extractor_fn, positional_or_keyword, subscript. rewrite Hfree. simpl.
    rewrite Hdf. simpl. by rewrite Hmiss.
  - unfold no_such_column. simpl.
    apply Str.occurs_in_append_r, Str.occurs_in_append_l, Str.occurs_in_refl.
  - unfold no_such_column.
    do 5 apply Str.occurs_in_append_r. apply Str.occurs_in_refl.
Qed.

(** With the column in the record, the extractor returns it. *)
Lemma extractor_fn_present_column (node_ : Node Ty) (column : string) kwargs df :
  kwargs !! "column_to_extract" = None ->
  kwargs !! name node_ = Some (VFrame df) ->
  pd.contains df (LStr column) = true ->
  exists data, pd.getitem df (LStr column) = Some data /\
    extractor_fn node_ column [] kwargs = Ok (VSeries data).
Proof.
  intros Hfree Hdf Hin.
  destruct (find_column_contains (pd.columns df) (LStr column)) as [data Hdata].
  { unfold pd.contains in Hin. by apply bool_decide_eq_true in Hin. }
  exists data. split; [done|].
  unfold extractor_fn, positional_or_keyword, subscript. rewrite Hfree. simpl.
  rewrite Hdf. simpl. rewrite Hin. simpl. unfold pd.getitem. by rewrite Hdata.
Qed.

(** With a fill default, a column requested by its bare name is in the
    record the base node produces, so extracting it succeeds. *)
Lemma filled_name_extracts (self : extract_columns) (node_ : Node Ty)
    (column : string) args kwargs df :
  fill_with self <> SNone ->
  Name column ∈ columns self ->
  name node_ <> "column_to_extract" ->
  callable node_ args kwargs = Ok (VFrame df) ->
  exists filled data,
    df_generator self (callable node_) args kwargs = Ok (VFrame filled) /\
    pd.getitem filled (LStr column) = Some data /\
    extractor_fn node_ column [] {[ name node_ := VFrame filled ]} = Ok (VSeries data).
Proof.
  intros Hfill Hin Hname Hrun.
  exists (fill_missing self df).
  destruct (extractor_fn_present_column node_ column
              {[ name node_ := VFrame (fill_missing self df) ]} (fill_missing self df))
    as (data & Hdata & Hext).
  - by rewrite lookup_singleton_ne.
  - by rewrite lookup_singleton_eq.
  - apply (fill_missing_inserts self df (Name column) Hin).
  - exists data. split_and!; [|done|done].
    unfold df_generator. rewrite Hrun. simpl.
    by rewrite bool_decide_eq_true_2.
Qed.

End ExtractColumns.
End ExtractColumns.

(** *** A documented column with a fill default *)

Module ExtractColumnsExamples.
Import ExtractColumns.

Definition str_Index (labels : list Label) : string :=
  "Index([" +:+ Str.join ", " (label_str <$> labels) +:+ "])".

Definition no_signature : Callable -> gmap string (string * DependencyType) :=
  fun _ => ∅.

(** A node [source()] producing a dataframe with the single column [x]. *)
Definition source : Node string :=
  {| name := "source"; type := "DataFrame"; documentation := "the source table";
     callable := fun _ _ =>
       Ok (VFrame {| pd.index_len := 2; pd.columns := [(LStr "x", [SInt 1; SInt 2])] |});
     node_source := STANDARD;
     input_types := ∅;
     tags := {[ "module" := Plain (SStr "my_functions") ]} |}.

(** [extract_columns(('a', 'the a column'), fill_with=0)] *)
Definition documented_a : extract_columns :=
  {| columns := [Documented "a" "the a column"]; fill_with := SInt 0 |}.

(** [extract_columns('a', fill_with=0)] *)
Definition named_a : extract_columns :=
  {| columns := [Name "a"]; fill_with := SInt 0 |}.

Definition expand (self : extract_columns) : list (Node string) :=
  expand_node "DataFrame" "Series" str_Index no_signature self source.

End ExtractColumnsExamples.

(** C5 fails on the code where a column is requested as a
    [(name, documentation)] tuple and a fill default is configured: the
    filler of the base node tests and creates a column labelled by the
    tuple itself, not by the name, so the record still lacks the column
    [a] and the extractor node of [a] raises. *)
Theorem fill_skips_documented_column :
  exists base extractor filled,
    ExtractColumnsExamples.expand ExtractColumnsExamples.documented_a = [base; extractor] /\
    callable base [] ∅ = Ok (VFrame filled) /\
    (pd.columns filled).*1 = [LStr "x"; LTuple "a" "the a column"] /\
    name extractor = "a" /\
    callable extractor [] {[ "source" := VFrame filled ]} =
      Raise (InvalidDecoratorException
        "No such column: a produced by source. It only produced Index([x, ('a', 'the a column')])").
Proof. do 3 eexists. split_and!; reflexivity. Qed.

(** The same request by bare name is filled and extracted. *)
Lemma fill_creates_named_column :
  exists base extractor filled,
    ExtractColumnsExamples.expand ExtractColumnsExamples.named_a = [base; extractor] /\
    callable base [] ∅ = Ok (VFrame filled) /\
    (pd.columns filled).*1 = [LStr "x"; LStr "a"] /\
    name extractor = "a" /\
    callable extractor [] {[ "source" := VFrame filled ]} = Ok (VSeries [SInt 0; SInt 0]).
Proof. do 3 eexists. split_and!; reflexivity. Qed.

(** ** Bytecode of a function body *)

Module Bytecode.

(** The one statement of a function body, after an optional docstring:
    [pass], or [return] of a constant. *)
Inductive Stmt :=
| Pass
| Return (c : Scalar).

(** What the body returns: a body that ends without [return] returns
    [None]. *)
Definition returned (s : Stmt) : Scalar :=
  match s with
  | Pass => SNone
  | Return c => c
  end.

(** [co_consts] of a function starts with the docstring, or with [None]
    when there is none; the constant the body returns is appended unless
    it is that first entry.  This is its index. *)
Definition const_index (doc : option string) (s : Stmt) : nat :=
  let first := match doc with Some d => SStr d | None => SNone end in
  if bool_decide (returned s = first) then 0 else 1.

(** [co_code] of the compiled function, in the wordcode of CPython 3.6 to
    3.10: [LOAD_CONST index] and [RETURN_VALUE], the argument bytes
    written as digits. *)
Definition compile (doc : option string) (s : Stmt) : string :=
  match const_index doc s with
  | 0 => "d0S0"
  | _ => "d1S0"
  end.

(** Following the specification: the body has no statement besides an
    optional docstring and a no-op. *)
Definition only_pass (s : Stmt) : Prop := s = Pass.

Lemma compile_pass_without_docstring : compile None Pass = "d0S0".
Proof. reflexivity. Qed.

Lemma compile_pass_with_docstring docstring : compile (Some docstring) Pass = "d1S0".
Proof. reflexivity. Qed.

Lemma compile_cases doc s : compile doc s = "d0S0" \/ compile doc s = "d1S0".
Proof. unfold compile. destruct (const_index doc s); [by left|by right]. Qed.

End Bytecode.

(** ** [does] and [dynamic_transform]: replacing an empty function *)

Module Does.
Section Does.
Context {Ty : Type}.

(** The builtin [issubclass]: it raises [TypeError] when an argument is
    not a class. *)
Variable issubclass : Ty -> Ty -> Result bool.
Variable repr_type : Ty -> string.

(** The two reference functions of the module, [_empty_function] and
    [_empty_function_with_docstring]; what is read of them is the
    bytecode the interpreter compiled their bodies to. *)
Variables _empty_function _empty_function_with_docstring : Function Ty.

Definition dquote : string := String (Ascii.ascii_of_nat 34) "".

Definition not_empty_message (fn : Function Ty) : string :=
  "Function: " +:+ __name__ fn +:+ " is not empty. Must have only one line that consists of "
    +:+ dquote +:+ "pass" +:+ dquote.

(** [ensure_function_empty] *)
Definition ensure_function_empty (fn : Function Ty) : Result unit :=
  if bool_decide (co_code fn ∉ [co_code _empty_function;
                                co_code _empty_function_with_docstring])
  then Raise (InvalidDecoratorException (not_empty_message fn))
  else Ok tt.

Record does := {
  replacing_function : Function Ty;
}.

(** [does.ensure_output_types_match] *)
Definition ensure_output_types_match (fn todo : Function Ty) : Result unit :=
  let annotation_fn := return_annotation fn in
  let annotation_todo := return_annotation todo in
  is_subclass ← issubclass annotation_todo annotation_fn;
  if negb is_subclass
  then Raise (InvalidDecoratorException
    ("Output types: " +:+ repr_type annotation_fn +:+ " and " +:+ repr_type annotation_todo
       +:+ " are not compatible"))
  else Ok tt.

(** [does.ensure_function_kwarg_only]: unpacking the single item of an
    empty [parameters] raises [ValueError]. *)
Definition ensure_function_kwarg_only (fn : Function Ty) : Result unit :=
  let parameters := parameters fn in
  if bool_decide (1 < length parameters)
  then Raise (InvalidDecoratorException
    "Too many parameters -- for now @does can only use **kwarg functions.")
  else
    match parameters with
    | [(_, parameter)] =>
        if negb (bool_decide (kind parameter = VAR_KEYWORD))
        then Raise (InvalidDecoratorException
          "Must have only one parameter, and that parameter must be a **kwargs parameter.")
        else Ok tt
    | _ => Raise (ValueError "not enough values to unpack (expected 1, got 0)")
    end.

(** [does.validate] *)
Definition validate (self : does) (fn : Function Ty) : Result unit :=
  ensure_function_empty fn;;
  ensure_function_kwarg_only (replacing_function self);;
  ensure_output_types_match fn (replacing_function self).

(** The replacement accepts only one open-ended bundle of named
    arguments. *)
Definition kwarg_only (todo : Function Ty) : Prop :=
  exists pname parameter,
    parameters todo = [(pname, parameter)] /\ kind parameter = VAR_KEYWORD.

(** The emptiness check is a test on the bytecode: it passes when the
    bytecode of the function is that of one of the two reference
    functions. *)
Lemma ensure_function_empty_ok fn :
  ensure_function_empty fn = Ok tt <->
  co_code fn = co_code _empty_function \/
  co_code fn = co_code _empty_function_with_docstring.
Proof.
  unfold ensure_function_empty. case_bool_decide as H.
  - split; [done|]. intros Hb. exfalso. apply H.
    rewrite !elem_of_cons. tauto.
  - split; [|done]. intros _.
    rewrite !elem_of_cons, elem_of_nil in H. tauto.
Qed.

Lemma ensure_function_empty_fails fn :
  co_code fn <> co_code _empty_function ->
  co_code fn <> co_code _empty_function_with_docstring ->
  ensure_function_empty fn = Raise (InvalidDecoratorException (not_empty_message fn)).
Proof.
  intros H1 H2. unfold ensure_function_empty. rewrite bool_decide_eq_true_2; [done|].
  intros Hin. rewrite !elem_of_cons, elem_of_nil in Hin. tauto.
Qed.

(** Whatever its one statement, a function compiled from a docstring (or
    none) and [pass] or [return] of a constant has the bytecode of one of
    the two reference functions, which are compiled from [pass] without
    and with a docstring. *)
Lemma ensure_function_empty_compiled fn docstring doc s :
  co_code _empty_function = Bytecode.compile None Bytecode.Pass ->
  co_code _empty_function_with_docstring = Bytecode.compile (Some docstring) Bytecode.Pass ->
  co_code fn = Bytecode.compile doc s ->
  ensure_function_empty fn = Ok tt.
Proof.
  intros H1 H2 Hfn. apply ensure_function_empty_ok. rewrite H1, H2, Hfn.
  rewrite Bytecode.compile_pass_without_docstring, Bytecode.compile_pass_with_docstring.
  apply Bytecode.compile_cases.
Qed.

Lemma ensure_function_kwarg_only_ok todo :
  ensure_function_kwarg_only todo = Ok tt <-> kwarg_only todo.
Proof.
  unfold ensure_function_kwarg_only, kwarg_only.
  destruct (parameters todo) as [|[pname parameter] [|second rest]]; simpl.
  - split; [done|]. by intros (? & ? & [=] & _).
  - case_bool_decide as Hk; simpl.
    + split; [|done]. intros _. by exists pname, parameter.
    + split; [done|]. by intros (? & ? & [= <- <-] & ?).
  - split; [done|]. by intros (? & ? & [=] & _).
Qed.

(** The validation passes exactly when the emptiness check passes, the
    replacement takes a single [**kwargs] parameter and nothing else, and
    [issubclass] finds the declared return type of the replacement a
    subclass of that of the function; a function that fails the
    emptiness check gets the error of that check, whatever the
    replacement. *)
Lemma does_validate_ok_iff (self : does) (fn : Function Ty) :
  (forall e, ensure_function_empty fn = Raise e -> validate self fn = Raise e) /\
  (validate self fn = Ok tt <->
   ensure_function_empty fn = Ok tt /\
   kwarg_only (replacing_function self) /\
   issubclass (return_annotation (replacing_function self)) (return_annotation fn) = Ok true).
Proof.
  split.
  - intros e He. unfold validate. by rewrite He.
  - unfold validate. rewrite <- ensure_function_kwarg_only_ok.
    destruct (ensure_function_empty fn) as [[]|e]; simpl; [|by split; [|intros []]].
    destruct (ensure_function_kwarg_only (replacing_function self)) as [[]|e]; simpl;
      [|by split; [|intros (_ & ? & _)]].
    unfold ensure_output_types_match.
    destruct (issubclass _ _) as [[|]|e]; simpl; [done| |];
      (split; [done|]); by intros (_ & _ & ?).
Qed.

End Does.

Section DynamicTransform.
Context {Ty : Type}.
Variable issubclass : Ty -> Ty -> Result bool.
Variable pd_Series : Ty.
Variables _empty_function _empty_function_with_docstring : Function Ty.

(** [dynamic_transform.validate] *)
Definition dynamic_transform_validate (fn : Function Ty) : Result unit :=
  ensure_function_empty _empty_function _empty_function_with_docstring fn;;
  is_subclass ← issubclass (return_annotation fn) pd_Series;
  if negb is_subclass
  then Raise (InvalidDecoratorException
    "Models must declare their return type as a pandas Series")
  else if bool_decide (0 < length (parameters fn))
  then Raise (InvalidDecoratorException
    "Models must have no parameters -- all are passed in through the config")
  else Ok tt.

End DynamicTransform.
End Does.

(** ** [extract_fields]: its constructor and its validation *)

Module ExtractFields.
Section ExtractFields.
Context {Ty : Type} `{EqDecision Ty}.

(** [dict] and [typing.Dict] as types, and the two functions of
    [typing_inspect] the validation calls. *)
Variables dict_ typing_Dict : Ty.
Variable is_generic_type : Ty -> bool.
Variable get_origin : Ty -> Ty.
Variable repr_type : Ty -> string.

(** The value declared for a field: a type, or something else. *)
Inductive FieldType :=
| IsType (t : Ty)
| NotType (v : Scalar).

(** The [fields] argument: a dict, or something else. *)
Inductive FieldsArg :=
| NotDict (v : Scalar)
| Dict (items : list (Scalar * FieldType)).

Record extract_fields := {
  fields : list (string * Ty);
  fill_with : Scalar;
}.

(** [not v] *)
Definition falsy (v : Scalar) : bool :=
  match v with
  | SNone => true
  | SBool b => negb b
  | SInt z => Z.eqb z 0
  | SStr s => String.eqb s ""
  end.

(** The errors the constructor gathers for one item. *)
Definition field_errors (item : Scalar * FieldType) : list string :=
  let '(field, field_type) := item in
  (if negb (is_str field)
   then [Str.str field +:+ " is not a string. All keys must be strings."] else []) ++
  (match field_type with
   | NotType v =>
       [Str.str field +:+ " does not declare a type. Instead it passes " +:+ Str.str v +:+ "."]
   | IsType _ => []
   end).

Definition checked_field (item : Scalar * FieldType) : option (string * Ty) :=
  match item with
  | (SStr field, IsType field_type) => Some (field, field_type)
  | _ => None
  end.

(** [extract_fields.__init__] *)
Definition init (fields_ : FieldsArg) (fill_with_ : Scalar) : Result extract_fields :=
  match fields_ with
  | Dict [] =>
      Raise (InvalidDecoratorException
        "Error an empty dict, or no dict, passed to extract_fields decorator.")
  | NotDict v =>
      if falsy v
      then Raise (InvalidDecoratorException
             "Error an empty dict, or no dict, passed to extract_fields decorator.")
      else Raise (InvalidDecoratorException "Error, please pass in a dict")
  | Dict items =>
      let errors := flat_map field_errors items in
      match errors with
      | [] => Ok {| fields := omap checked_field items; fill_with := fill_with_ |}
      | _ => Raise (InvalidDecoratorException
               ("Error, found these " +:+ Str.join ", " errors
                  +:+ ". Please pass in a dict of string to types. "))
      end
  end.

Definition not_a_dict_message (output_type : Ty) : string :=
  "For extracting fields, output type must be a dict or typing.Dict, not: "
    +:+ repr_type output_type.

(** [extract_fields.validate] *)
Definition validate (fn : Function Ty) : Result unit :=
  let output_type := return_annotation fn in
  if is_generic_type output_type then
    let base := get_origin output_type in
    if bool_decide (base = dict_) || bool_decide (base = typing_Dict) then Ok tt
    else Raise (InvalidDecoratorException (not_a_dict_message output_type))
  else if bool_decide (output_type = dict_) then Ok tt
  else Raise (InvalidDecoratorException (not_a_dict_message output_type)).

(** The declared type is the dictionary kind of record: [dict] itself, or
    a generic type whose origin is [dict] or [typing.Dict]. *)
Definition dict_like (output_type : Ty) : Prop :=
  (is_generic_type output_type = true /\
   (get_origin output_type = dict_ \/ get_origin output_type = typing_Dict)) \/
  (is_generic_type output_type = false /\ output_type = dict_).

Lemma validate_ok fn : validate fn = Ok tt <-> dict_like (return_annotation fn).
Proof.
  unfold validate, dict_like.
  destruct (is_generic_type (return_annotation fn)).
  - do 2 case_bool_decide; simpl; split; try done; try tauto; intros [[_ []]|[]]; done.
  - case_bool_decide; split; try done; try tauto. intros [[]|[_ ?]]; done.
Qed.

Lemma validate_fails fn :
  ~ dict_like (return_annotation fn) ->
  validate fn = Raise (InvalidDecoratorException (not_a_dict_message (return_annotation fn))).
Proof.
  intros Hnot. pose proof (validate_ok fn) as Hok. unfold validate in *.
  destruct (is_generic_type (return_annotation fn)).
  - destruct (bool_decide _ || bool_decide _); [|done]. exfalso. by apply Hnot, Hok.
  - destruct (bool_decide _); [|done]. exfalso. by apply Hnot, Hok.
Qed.


Lemma init_untyped_field items fill_with_ field v :
  (field, NotType v) ∈ items ->
  exists msg, init (Dict items) fill_with_ = Raise (InvalidDecoratorException msg).
Proof.
  intros Hin. unfold init. destruct items as [|item items]; [by eexists|].
  destruct (flat_map field_errors (item :: items)) as [|err errs] eqn:Herr; [|by eexists].
  exfalso.
  assert (In (Str.str field +:+ " does not declare a type. Instead it passes "
                +:+ Str.str v +:+ ".") (flat_map field_errors (item :: items))) as Hbad.
  { apply in_flat_map. exists (field, NotType v). split; [by apply list_elem_of_In|].
    simpl. apply in_or_app. right. by left. }
  by rewrite Herr in Hbad.
Qed.

End ExtractFields.
End ExtractFields.

(** ** Validation across the decorators *)

Module Validation.
Section Validation.
Context {Ty : Type} `{EqDecision Ty}.

Variables pd_DataFrame pd_Series dict_ typing_Dict : Ty.
Variable issubclass : Ty -> Ty -> Result bool.
Variable is_generic_type : Ty -> bool.
Variable get_origin : Ty -> Ty.
Variable repr_type : Ty -> string.
Variable isidentifier : string -> bool.
Variable str_format : string -> list (string * string) -> Result string.
Variables _empty_function _empty_function_with_docstring : Function Ty.

(** Modelled from the spec: the driver that applies a decorator is in
    [function_modifiers_base], which is not part of the module; by section 5
    of the spec a validation failure at any stage aborts the compilation of
    the function, so the decorator expands the node only after its
    validation passed. *)
Definition validate_then_expand (validated : Result unit)
    (expanded : Result (list (Node Ty))) : Result (list (Node Ty)) :=
  validated;; expanded.


(** Where the claim about the validation of the extractions holds: a
    function whose declared return type [issubclass] finds not to be a
    subclass of the dataframe type fails the validation of
    [extract_columns], and one whose declared return type is neither
    [dict] nor a generic type over [dict] or [typing.Dict] fails the
    validation of [extract_fields], each with the invalid-decorator error
    and whatever the expansion would produce; and [extract_fields] given a
    field without a type is rejected with that error when it is
    constructed. *)
Lemma extract_validation_rejects (fn : Function Ty) :
  (issubclass (return_annotation fn) pd_DataFrame = Ok false ->
   exists msg,
     ExtractColumns.validate pd_DataFrame issubclass repr_type fn
       = Raise (InvalidDecoratorException msg) /\
     forall expanded,
       validate_then_expand
         (ExtractColumns.validate pd_DataFrame issubclass repr_type fn) expanded
       = Raise (InvalidDecoratorException msg)) /\
  (~ ExtractFields.dict_like dict_ typing_Dict is_generic_type get_origin
       (return_annotation fn) ->
   exists msg,
     ExtractFields.validate dict_ typing_Dict is_generic_type get_origin repr_type fn
       = Raise (InvalidDecoratorException msg) /\
     forall expanded,
       validate_then_expand
         (ExtractFields.validate dict_ typing_Dict is_generic_type get_origin repr_type fn)
         expanded
       = Raise (InvalidDecoratorException msg)) /\
  (forall (items : list (Scalar * @ExtractFields.FieldType Ty)) fill_with_ field v,
     (field, ExtractFields.NotType v) ∈ items ->
     exists msg,
       ExtractFields.init (ExtractFields.Dict items) fill_with_
       = Raise (InvalidDecoratorException msg)).
Proof.
  split_and!.
  - intros Hsub. unfold validate_then_expand, ExtractColumns.validate.
    rewrite Hsub. simpl. eexists. split; [reflexivity|]. by intros expanded.
  - intros Hnot. unfold validate_then_expand.
    rewrite (ExtractFields.validate_fails _ _ _ _ _ _ Hnot).
    eexists. split; [reflexivity|]. by intros expanded.
  - intros items fill_with_ field v Hin. by eapply ExtractFields.init_untyped_field.
Qed.
















End Validation.
End Validation.

(** ** The theorems at concrete decorators *)

Module Examples.

(** Types by their qualified names.  A name of [typing] is not a class,
    and [issubclass] refuses it as its first argument; a class is a
    subclass of itself and of [object]. *)
Definition issubclass (a b : string) : Result bool :=
  if String.prefix "typing." a
  then Raise (TypeError "issubclass() arg 1 must be a class")
  else Ok (String.eqb a b || String.eqb b "object").

Definition is_generic_type (t : string) : bool :=
  String.prefix "typing." t.

Definition get_origin (t : string) : string :=
  if String.prefix "typing.Dict" t then "typing.Dict" else t.

Definition repr_type (t : string) : string := t.

Definition is_letter (c : ascii) : bool :=
  let n := nat_of_ascii c in
  (Nat.leb 65 n && Nat.leb n 90) || (Nat.leb 97 n && Nat.leb n 122) || Nat.eqb n 95.

Definition is_digit (c : ascii) : bool :=
  let n := nat_of_ascii c in Nat.leb 48 n && Nat.leb n 57.

Fixpoint all_chars (p : ascii -> bool) (s : string) : bool :=
  match s with
  | EmptyString => true
  | String c s' => p c && all_chars p s'
  end.

(** [str.isidentifier] on ASCII strings. *)
Definition isidentifier (s : string) : bool :=
  match s with
  | EmptyString => false
  | String c s' => is_letter c && all_chars (fun c => is_letter c || is_digit c) s'
  end.

Definition keyword_arguments : string * Param string :=
  ("kwargs", {| annotation := "inspect._empty"; kind := VAR_KEYWORD |}).

Definition positional (pname : string) (ty : string) : string * Param string :=
  (pname, {| annotation := ty; kind := POSITIONAL_OR_KEYWORD |}).

Definition _empty_function : Function string :=
  {| __name__ := "_empty_function"; __module__ := "hamilton.function_modifiers";
     __doc__ := None; parameters := []; return_annotation := "inspect._empty";
     co_code := "d0S0" |}.

Definition _empty_function_with_docstring : Function string :=
  {| __name__ := "_empty_function_with_docstring";
     __module__ := "hamilton.function_modifiers";
     __doc__ := Some "Docstring for an empty function"; parameters := [];
     return_annotation := "inspect._empty"; co_code := "d1S0" |}.

(** A declaration with an empty body, and a replacement for it. *)
Definition declared_sum : Function string :=
  {| __name__ := "sum_of"; __module__ := "my_functions"; __doc__ := Some "Sums the inputs";
     parameters := [positional "a" "int"; positional "b" "int"];
     return_annotation := "int"; co_code := "d1S0" |}.

Definition sum_kwargs : Function string :=
  {| __name__ := "_sum"; __module__ := "my_functions"; __doc__ := None;
     parameters := [keyword_arguments]; return_annotation := "int"; co_code := "t0|0S0" |}.

(** A function with a body, returning a plain integer. *)
Definition computes : Function string :=
  {| __name__ := "total"; __module__ := "my_functions"; __doc__ := None;
     parameters := [positional "a" "int"]; return_annotation := "int";
     co_code := "|0d1" |}.

(** [def total(a: int) -> int: return 1] *)
Definition returns_one : Function string :=
  {| __name__ := "total"; __module__ := "my_functions"; __doc__ := None;
     parameters := [positional "a" "int"]; return_annotation := "int";
     co_code := Bytecode.compile None (Bytecode.Return (SInt 1)) |}.

(** [def numbers() -> typing.List[int]: return [1, 2]] *)
Definition returns_list : Function string :=
  {| __name__ := "numbers"; __module__ := "my_functions"; __doc__ := None;
     parameters := []; return_annotation := "typing.List[int]";
     co_code := "d1d2g2S0" |}.

Definition two_values : Parametrized.parametrized :=
  {| Parametrized.parameter := "b";
     Parametrized.assigned_output :=
       [(("f_low", "f with a low b"), VScalar (SInt 1));
        (("f_high", "f with a high b"), VScalar (SInt 9))] |}.

End Examples.

Lemma expand_node_correct_witness :
  exists n,
    Parametrized.expand_node Examples.two_values SubstitutionExamples.node_f !! 1 = Some n /\
    name n = "f_high" /\
    input_types n !! "b" = None /\
    fst <$> input_types n !! "a" = Some "int" /\
    callable n [] {[ "a" := VScalar (SInt 5) ]} = Ok (VScalar (SInt 5)).
Proof.
  destruct (Parametrized.expand_node_correct Examples.two_values SubstitutionExamples.node_f)
    as [_ H].
  destruct (H 1 "f_high" "f with a high b" (VScalar (SInt 9)) eq_refl)
    as (n & Hn & Hname & _ & _ & Hp & Hother & _ & Hcall).
  exists n. split_and!; [done|done|done| |].
  - by rewrite (Hother "a").
  - by rewrite Hcall.
Defined.

Lemma decorate_node_correct_witness :
  tags (Tag.decorate_node {| Tag.tags := {[ "x" := Plain (SStr "1") ]} |}
          (Tag.decorate_node {| Tag.tags := {[ "x" := Plain (SStr "2") ]} |}
             SubstitutionExamples.node_f)) !! "x" = Some (Plain (SStr "2")).
Proof.
  apply (Tag.decorate_node_correct {| Tag.tags := ∅ |} SubstitutionExamples.node_f).
  exact (eq_refl : tags SubstitutionExamples.node_f !! "x" = None).
Defined.

(** C6: the claim has the validation of [does] fail with the "not empty"
    error for every function whose body has a statement besides an
    optional docstring and a no-op.  [ensure_function_empty] compares
    bytecode, and a body that returns a constant compiles to the bytecode
    of one of the two reference functions: the check passes on it, and for
    [def total(a: int) -> int: return 1] with a replacement [_sum] that
    takes keyword arguments and returns [int] the whole validation of
    [does] passes. *)
Theorem does_validate_accepts_constant_return :
  co_code Examples._empty_function = Bytecode.compile None Bytecode.Pass /\
  co_code Examples._empty_function_with_docstring =
    Bytecode.compile (__doc__ Examples._empty_function_with_docstring) Bytecode.Pass /\
  (forall (fn : Function string) doc c,
     co_code fn = Bytecode.compile doc (Bytecode.Return c) ->
     ~ Bytecode.only_pass (Bytecode.Return c) /\
     Does.ensure_function_empty Examples._empty_function
       Examples._empty_function_with_docstring fn = Ok tt) /\
  co_code Examples.returns_one =
    Bytecode.compile (__doc__ Examples.returns_one) (Bytecode.Return (SInt 1)) /\
  Does.validate Examples.issubclass Examples.repr_type Examples._empty_function
    Examples._empty_function_with_docstring
    {| Does.replacing_function := Examples.sum_kwargs |} Examples.returns_one
  = Ok tt.
Proof.
  split_and!; try reflexivity.
  intros fn doc c Hcode. split; [done|].
  by apply (Does.ensure_function_empty_compiled _ _ fn "Docstring for an empty function"
              doc (Bytecode.Return c)).
Qed.

(** C7: the claim has every function whose declared return type is not
    dataframe-like fail the validation of [extract_columns] with the
    invalid-decorator error.  When the declared return type is not a
    class, [issubclass] raises, and [extract_columns.validate] lets that
    exception escape in place of the invalid-decorator error, also
    through the driver: so for a function declared to return
    [typing.List[int]], which the validation of [extract_fields] does
    reject with the invalid-decorator error. *)
Theorem extract_columns_validate_type_error :
  (forall (issubclass : string -> string -> Result bool) (fn : Function string) e,
     issubclass (return_annotation fn) "pandas.DataFrame" = Raise e ->
     ExtractColumns.validate "pandas.DataFrame" issubclass Examples.repr_type fn = Raise e /\
     forall expanded : Result (list (Node string)),
       Validation.validate_then_expand
         (ExtractColumns.validate "pandas.DataFrame" issubclass Examples.repr_type fn)
         expanded = Raise e) /\
  ExtractColumns.validate "pandas.DataFrame" Examples.issubclass Examples.repr_type
    Examples.returns_list
  = Raise (TypeError "issubclass() arg 1 must be a class") /\
  (exists msg,
     ExtractFields.validate "dict" "typing.Dict" Examples.is_generic_type
       Examples.get_origin Examples.repr_type Examples.returns_list
     = Raise (InvalidDecoratorException msg)).
Proof.
  split_and!.
  - intros issubclass fn e Hraise.
    unfold Validation.validate_then_expand, ExtractColumns.validate.
    rewrite Hraise. by split.
  - reflexivity.
  - by eexists.
Qed.



(** * Further properties of the decorators *)

(** ** The [config] family: [when_not], [when_in], [when_not_in], [validate]
    and the renaming of [resolve] *)

Module ConfigFamily.
Import Config.

(** [x in collection], for a collection given as a list. *)
Definition py_in (x : Scalar) (collection : list Scalar) : bool :=
  existsb (py_eq x) collection.

(** [config.when_in(name, **key_value_group_pairs)] *)
Definition when_in (name : option string)
    (key_value_group_pairs : list (string * list Scalar)) : config :=
  {| does_resolve := fun configuration =>
       forallb (fun '(key, value) => py_in (dict_get configuration key) value)
               key_value_group_pairs;
     target_name := name |}.

(** [config.when_not_in], which takes groups and no name. *)
Definition when_not_in (key_value_group_pairs : list (string * list Scalar)) : config :=
  {| does_resolve := fun configuration =>
       forallb (fun '(key, value) => negb (py_in (dict_get configuration key) value))
               key_value_group_pairs;
     target_name := None |}.

(** [name.endswith("__")], said on the string itself. *)
Definition ends_with_dunder (s : string) : Prop := exists p, s = p +:+ "__".

Section ConfigFamily.
Context {Ty : Type}.
Variable sanitize_function_name : string -> string.

(** X1: a function decorated with [config.when_not] resolves if and only
    if every expected value differs from [configuration.get(key)], an
    absent key reading as [None]; otherwise [resolve] returns [None] and
    leaves the heap as it was. *)
Theorem when_not_resolves_iff name kvs (fn : nat) configuration
    (h : gmap nat (Function Ty)) :
  ((resolve sanitize_function_name (when_not name kvs) fn configuration h).1 = Some fn <->
   Forall (fun kv => py_eq kv.2 (dict_get configuration kv.1) = false) kvs) /\
  ((resolve sanitize_function_name (when_not name kvs) fn configuration h).1 = None <->
   resolve sanitize_function_name (when_not name kvs) fn configuration h = (None, h)).
Proof.
  assert (does_resolve (when_not name kvs) configuration = true <->
          Forall (fun kv => py_eq kv.2 (dict_get configuration kv.1) = false) kvs) as Hiff.
  { unfold when_not. simpl. rewrite forallb_forall, Forall_forall. split.
    - intros H [k v] Hin. apply list_elem_of_In in Hin.
      specialize (H _ Hin). simpl in *. by apply negb_true_iff in H.
    - intros H [k v] Hin. apply list_elem_of_In in Hin.
      specialize (H _ Hin). simpl in *. by apply negb_true_iff. }
  unfold resolve.
  destruct (does_resolve (when_not name kvs) configuration) eqn:E; simpl.
  - split; [by rewrite <- Hiff|]. split; intros [=].
  - split; [|done]. split; [done|]. intros H. apply Hiff in H. discriminate.
Qed.

(** X2: on the same non-empty expectations [when] and [when_not] never
    both resolve, and on a single expectation exactly one of them does;
    with several expectations it can be that neither does. *)
Theorem when_and_when_not n1 n2 :
  (forall kvs configuration, kvs <> [] ->
     ~ (does_resolve (when n1 kvs) configuration = true /\
        does_resolve (when_not n2 kvs) configuration = true)) /\
  (forall kv configuration,
     does_resolve (when_not n2 [kv]) configuration =
     negb (does_resolve (when n1 [kv]) configuration)) /\
  (does_resolve (when n1 [("a", SInt 1); ("b", SInt 2)])
     {[ "a" := SInt 1; "b" := SInt 3 ]} = false /\
   does_resolve (when_not n2 [("a", SInt 1); ("b", SInt 2)])
     {[ "a" := SInt 1; "b" := SInt 3 ]} = false).
Proof.
  split_and!.
  - intros [|[k v] kvs] configuration Hne; [done|]. simpl.
    intros [H1 H2]. apply andb_true_iff in H1 as [H1 _].
    apply andb_true_iff in H2 as [H2 _]. rewrite H1 in H2. discriminate.
  - intros [k v] configuration. simpl. by rewrite !andb_true_r.
  - by vm_compute.
  - by vm_compute.
Qed.

(** X3: [when_in] resolves exactly when every [configuration.get(key)]
    equals a member of the group of its key, so a key with an empty group
    never resolves; with one-element groups it resolves exactly when
    [when] does on those values. *)
Theorem when_in_resolves name groups configuration :
  (does_resolve (when_in name groups) configuration = true <->
   forall key group, (key, group) ∈ groups ->
     exists v, v ∈ group /\ py_eq (dict_get configuration key) v = true) /\
  (forall key, (key, []) ∈ groups ->
     does_resolve (when_in name groups) configuration = false) /\
  (forall kvs,
     does_resolve (when_in name ((fun kv => (kv.1, [kv.2])) <$> kvs)) configuration =
     does_resolve (when name kvs) configuration).
Proof.
  assert (does_resolve (when_in name groups) configuration = true <->
   forall key group, (key, group) ∈ groups ->
     exists v, v ∈ group /\ py_eq (dict_get configuration key) v = true) as Hiff.
  { unfold when_in, py_in. simpl. rewrite forallb_forall. split.
    - intros H key group Hin. apply list_elem_of_In in Hin.
      specialize (H _ Hin). simpl in H. apply existsb_exists in H as (v & Hv & Heq).
      exists v. split; [by apply list_elem_of_In|done].
    - intros H [key group] Hin. apply list_elem_of_In in Hin.
      destruct (H _ _ Hin) as (v & Hv & Heq). apply existsb_exists.
      exists v. split; [by apply list_elem_of_In|done]. }
  split_and!; [done| |].
  - intros key Hin.
    destruct (does_resolve (when_in name groups) configuration) eqn:E; [|done].
    destruct (proj1 Hiff eq_refl _ _ Hin) as (v & Hv & _).
    by apply elem_of_nil in Hv.
  - intros kvs. unfold when_in, when, py_in. simpl.
    induction kvs as [|[k v] kvs IH]; [done|].
    cbn [fmap list_fmap forallb fst snd existsb].
    rewrite orb_false_r, (py_eq_sym v). f_equal. exact IH.
Qed.

(** X4: on a single key exactly one of [when_in] and [when_not_in]
    resolves; on any non-empty groups they never both resolve; and a key
    with an empty group does not stand in the way of [when_not_in]. *)
Theorem when_in_and_when_not_in name :
  (forall key group configuration,
     does_resolve (when_not_in [(key, group)]) configuration =
     negb (does_resolve (when_in name [(key, group)]) configuration)) /\
  (forall groups configuration, groups <> [] ->
     ~ (does_resolve (when_in name groups) configuration = true /\
        does_resolve (when_not_in groups) configuration = true)) /\
  (forall key groups configuration,
     does_resolve (when_not_in ((key, []) :: groups)) configuration =
     does_resolve (when_not_in groups) configuration).
Proof.
  split_and!.
  - intros key group configuration. simpl. by rewrite !andb_true_r.
  - intros [|[k g] groups] configuration Hne; [done|]. simpl.
    intros [H1 H2]. apply andb_true_iff in H1 as [H1 _].
    apply andb_true_iff in H2 as [H2 _]. rewrite H1 in H2. discriminate.
  - done.
Qed.

End ConfigFamily.
End ConfigFamily.

Module ConfigNames.
Import Config ConfigFamily.

Lemma length_append (a b : string) :
  String.length (a +:+ b) = String.length a + String.length b.
Proof.
  induction a as [|x a IH]; [done|].
  change (S (String.length (a +:+ b)) = S (String.length a + String.length b)).
  by rewrite IH.
Qed.

Lemma substring_last_two (s : string) :
  String.substring (String.length s - 2) 2 s = "__" <-> ends_with_dunder s.
Proof.
  unfold ends_with_dunder.
  induction s as [|c s IH].
  - split; [done|]. by intros ([|? ?] & ?).
  - destruct s as [|d [|e s]].
    + simpl. split; [intros [=]|].
      clear IH. intros (p & H). destruct p as [|? [|? ?]]; cbv in H;
        first [exact H | discriminate H].
    + simpl. split.
      * intros [= -> ->]. by exists "".
      * clear IH. intros (p & H). destruct p as [|? [|? [|? ?]]]; cbv in H;
          first [exact H | discriminate H].
    + cbn [String.length Nat.sub String.substring] in *.
      rewrite Nat.sub_0_r in IH.
      rewrite IH. split.
      * intros (p & Hp). exists (String c p). by rewrite Hp.
      * intros ([|c' p] & Hp); [discriminate Hp|].
        change (String c' p +:+ "__") with (String c' (p +:+ "__")) in Hp.
        injection Hp as -> Hp. by exists p.
Qed.

Section ConfigNames.
Context {Ty : Type}.
Variable sanitize_function_name : string -> string.

(** X5: [config.validate] rejects, with the invalid-decorator error,
    exactly the functions whose name ends in a double underscore; a name
    shorter than two characters is accepted. *)
Theorem config_validate_dunder (fn : Function Ty) :
  (validate fn = Ok tt <-> ~ ends_with_dunder (__name__ fn)) /\
  ((exists msg, validate fn = Raise (InvalidDecoratorException msg)) <->
   ends_with_dunder (__name__ fn)) /\
  (String.length (__name__ fn) < 2 -> validate fn = Ok tt).
Proof.
  assert (validate fn = Ok tt <-> ~ ends_with_dunder (__name__ fn)) as Hok.
  { unfold validate. rewrite <- substring_last_two.
    destruct (String.eqb _ _) eqn:E.
    - apply String.eqb_eq in E. split; [done|]. by intros [].
    - apply String.eqb_neq in E. by split. }
  split_and!; [done| |].
  - split.
    + intros [msg Hmsg]. unfold validate in Hmsg. apply substring_last_two.
      destruct (String.eqb _ _) eqn:E; [by apply String.eqb_eq in E|done].
    + intros Hd. unfold validate.
      apply substring_last_two, String.eqb_eq in Hd. rewrite Hd. by eexists.
  - intros Hlen. apply Hok. intros [p Hp]. rewrite Hp in Hlen.
    rewrite length_append in Hlen. simpl in Hlen. lia.
Qed.

(** X6: when the resolver accepts the configuration, [resolve] returns
    the reference it was given and renames that object in place, to the
    explicit name when there is one and to the sanitized name otherwise,
    every other attribute and every other object staying as it was;
    resolving again with an explicit name changes nothing more. *)
Theorem resolve_renames_in_place (self : config) (fn : nat) configuration
    (h : gmap nat (Function Ty)) (f : Function Ty) :
  h !! fn = Some f ->
  does_resolve self configuration = true ->
  let renamed :=
    set_name f (match target_name self with
                | Some name => name
                | None => sanitize_function_name (__name__ f)
                end) in
  resolve sanitize_function_name self fn configuration h = (Some fn, <[fn := renamed]> h) /\
  __module__ renamed = __module__ f /\ __doc__ renamed = __doc__ f /\
  parameters renamed = parameters f /\ return_annotation renamed = return_annotation f /\
  (forall l, l <> fn -> <[fn := renamed]> h !! l = h !! l) /\
  (is_Some (target_name self) ->
   resolve sanitize_function_name self fn configuration (<[fn := renamed]> h)
   = (Some fn, <[fn := renamed]> h)).
Proof.
  intros Hf Hres renamed.
  assert (forall (h0 : gmap nat (Function Ty)) f0, h0 !! fn = Some f0 ->
          resolve sanitize_function_name self fn configuration h0 =
          (Some fn, <[fn := set_name f0 (_get_function_name sanitize_function_name self f0)]> h0))
    as Hstep.
  { intros h0 f0 Hf0. rewrite (resolve_present _ _ _ _ _ Hres). f_equal.
    apply map_eq. intros l. destruct (decide (l = fn)) as [->|Hne].
    - by rewrite lookup_alter_eq, lookup_insert_eq, Hf0.
    - by rewrite lookup_alter_ne, lookup_insert_ne. }
  split_and!; try done.
  - by rewrite (Hstep h f Hf).
  - intros l Hl. by rewrite lookup_insert_ne.
  - intros [name Hname].
    rewrite (Hstep (<[fn := renamed]> h) renamed) by apply lookup_insert_eq.
    f_equal. rewrite insert_insert_eq. f_equal.
    unfold renamed, _get_function_name. by rewrite Hname.
Qed.

End ConfigNames.

Lemma resolve_renames_in_place_witness :
  resolve id (when None [("region", SStr "us")]) 0 {[ "region" := SStr "us" ]}
    {[ 0 := signups_v2 ]}
  = (Some 0, <[0 := set_name signups_v2 "signups__v2"]> {[ 0 := signups_v2 ]}).
Proof.
  apply (resolve_renames_in_place id (when None [("region", SStr "us")]) 0
           {[ "region" := SStr "us" ]} {[ 0 := signups_v2 ]} signups_v2).
  - reflexivity.
  - reflexivity.
Defined.

End ConfigNames.

(** ** [parametrized]: its constructor, and values given at the call *)

Module ParametrizedCalls.
Import Parametrized.

Definition as_key (entry : (string * string) * Value) : Label * Value :=
  (LTuple entry.1.1 entry.1.2, entry.2).

Lemma tuple_keys_ok l keyed :
  tuple_keys l = Ok keyed <-> l = as_key <$> keyed.
Proof.
  revert keyed. induction l as [|[[s|n d] v] l IH]; intros keyed; simpl.
  - split; [by intros [= <-]|]. by destruct keyed.
  - split; [done|]. by destruct keyed as [|[[??]?]?].
  - destruct (tuple_keys l) as [rest|e] eqn:Hl; simpl.
    + split.
      * intros [= <-]. simpl. unfold as_key at 1. simpl. f_equal. by apply IH.
      * destruct keyed as [|[[n' d'] v'] keyed]; [done|].
        intros [= -> -> -> Hrest]. apply IH in Hrest. by simplify_eq.
    + split; [done|]. destruct keyed as [|[[n' d'] v'] keyed]; [done|].
      intros [= -> -> -> Hrest]. apply IH in Hrest. done.
Qed.

Lemma tuple_keys_raises l :
  (exists msg, tuple_keys l = Raise (InvalidDecoratorException msg)) <->
  exists s v, (LScalar s, v) ∈ l.
Proof.
  induction l as [|[[s0|n d] v0] l IH]; simpl.
  - split; [by intros [? ?]|]. intros (s & v & H). by apply elem_of_nil in H.
  - split; [|by eexists]. intros _. exists s0, v0. by left.
  - destruct (tuple_keys l) as [rest|e] eqn:Hl; simpl.
    + split; [by intros [? ?]|]. intros (s & v & [[=]|Hin]%elem_of_cons).
      destruct (proj2 IH) as [msg Hmsg]; [by exists s, v|]. done.
    + split.
      * intros [msg [= ->]]. destruct (proj1 IH) as (s & v & Hin); [by eexists|].
        exists s, v. by right.
      * intros (s & v & [[=]|Hin]%elem_of_cons).
        destruct (proj2 IH) as [msg Hmsg]; [by exists s, v|]. by exists msg.
Qed.

(** X7: the constructor of [parametrized] accepts its mapping exactly when
    every key is a (name, documentation) tuple, and then keeps the entries
    as given and in order; otherwise it raises the invalid-decorator
    error. *)
Theorem parametrized_init_keeps_entries parameter_ l :
  (forall self,
     init parameter_ l = Ok self <->
     parameter self = parameter_ /\ l = as_key <$> assigned_output self) /\
  ((exists msg, init parameter_ l = Raise (InvalidDecoratorException msg)) <->
   exists s v, (LScalar s, v) ∈ l).
Proof.
  split.
  - intros [p ao]. unfold init. simpl.
    destruct (tuple_keys l) as [keyed|e] eqn:Hl; simpl.
    + apply tuple_keys_ok in Hl. split.
      * intros [= <- <-]. done.
      * intros [<- Heq]. f_equal. f_equal. subst l.
        clear -Heq. revert ao Heq.
        induction keyed as [|[[n d] v] keyed IH]; intros [|[[n' d'] v'] ao] Heq;
          try done. injection Heq as -> -> -> Heq. f_equal. by apply IH.
    + split; [done|]. intros [_ Heq]. apply tuple_keys_ok in Heq. congruence.
  - rewrite <- tuple_keys_raises. unfold init.
    destruct (tuple_keys l) as [keyed|e]; simpl; split; intros [msg H]; try done;
      exists msg; congruence.
Qed.

Section ParametrizedCalls.
Context {Ty : Type}.

(** X8: a node generated by [parametrized] that is called with a keyword
    argument for the bound parameter passes the caller's value, not the
    fixed one, to the original implementation. *)
Theorem call_time_value_overrides (self : parametrized) (node_ : Node Ty) n args kwargs w :
  n ∈ expand_node self node_ ->
  kwargs !! parameter self = Some w ->
  callable n args kwargs = callable node_ args kwargs.
Proof.
  intros Hn Hw. unfold expand_node in Hn.
  apply list_elem_of_fmap in Hn as ([[node_name node_doc] value] & -> & _).
  simpl. unfold partial. f_equal.
  apply map_eq. intros k. rewrite lookup_union.
  destruct (decide (k = parameter self)) as [->|Hne].
  - by rewrite Hw, lookup_singleton_eq.
  - rewrite lookup_singleton_ne by done. by destruct (kwargs !! k).
Qed.

End ParametrizedCalls.
End ParametrizedCalls.

Lemma call_time_value_overrides_witness :
  exists n,
    n ∈ Parametrized.expand_node Examples.two_values SubstitutionExamples.node_f /\
    callable n [] {[ "a" := VScalar (SInt 5); "b" := VScalar (SInt 7) ]} =
    callable SubstitutionExamples.node_f []
      {[ "a" := VScalar (SInt 5); "b" := VScalar (SInt 7) ]}.
Proof.
  eexists. split; [by left|].
  eapply (ParametrizedCalls.call_time_value_overrides Examples.two_values
            SubstitutionExamples.node_f _ [] _ (VScalar (SInt 7))).
  - by left.
  - reflexivity.
Defined.

(** ** [parametrized_input] and [parameterized_inputs]: constructors,
    validation and missing keys *)

Module SubstitutionEdges.
Import Substitution.

Definition as_value (entry : string * (string * string)) : string * Label :=
  (entry.1, LTuple entry.2.1 entry.2.2).

Lemma tuple_values_ok l checked :
  tuple_values l = Ok checked <-> l = as_value <$> checked.
Proof.
  revert checked. induction l as [|[k [s|n d]] l IH]; intros checked; simpl.
  - split; [by intros [= <-]|]. by destruct checked.
  - split; [done|]. by destruct checked as [|[?[??]]?].
  - destruct (tuple_values l) as [rest|e] eqn:Hl; simpl.
    + split.
      * intros [= <-]. simpl. unfold as_value at 1. simpl. f_equal. by apply IH.
      * destruct checked as [|[k' [n' d']] checked]; [done|].
        intros [= -> -> -> Hrest]. apply IH in Hrest. by simplify_eq.
    + split; [done|]. destruct checked as [|[k' [n' d']] checked]; [done|].
      intros [= -> -> -> Hrest]. apply IH in Hrest. done.
Qed.

(** X9: the constructor of [parametrized_input] returns a decorator
    exactly when every value of its mapping is a (name, description)
    tuple, and then keeps the entries as given and in order; any other
    mapping is rejected with the invalid-decorator error. *)
Theorem parametrized_input_init_keeps_entries parameter_ l :
  (forall self,
     parametrized_input_init parameter_ l = Ok self <->
     parameter self = parameter_ /\ l = as_value <$> assigned_output self) /\
  ((forall checked, l <> as_value <$> checked) ->
   exists msg, parametrized_input_init parameter_ l = Raise (InvalidDecoratorException msg)).
Proof.
  split.
  - intros [p ao]. unfold parametrized_input_init. simpl.
    destruct (tuple_values l) as [checked|e] eqn:Hl; simpl.
    + apply tuple_values_ok in Hl. split.
      * intros [= <- <-]. done.
      * intros [<- Heq]. f_equal. f_equal. subst l.
        clear -Heq. revert ao Heq.
        induction checked as [|[k [n d]] checked IH]; intros [|[k' [n' d']] ao] Heq;
          try done. injection Heq as -> -> -> Heq. f_equal. by apply IH.
    + split; [done|]. intros [_ Heq]. apply tuple_values_ok in Heq. congruence.
  - intros Hnot. unfold parametrized_input_init.
    destruct (tuple_values l) as [checked|e] eqn:Hl; simpl.
    + apply tuple_values_ok in Hl. by destruct (Hnot checked).
    + clear Hnot. revert e Hl. induction l as [|[k [s|n d]] l IH]; intros e; simpl; [done| |].
      * intros [= <-]. by eexists.
      * destruct (tuple_values l) as [rest|e'] eqn:Hl'; simpl; [done|].
        intros [= <-]. by apply IH.
Qed.

Lemma collect_length {A B} (f : A -> Result B) l ys :
  collect f l = Ok ys -> length ys = length l.
Proof.
  revert ys. induction l as [|x l IH]; intros ys; simpl; [by intros [= <-]|].
  destruct (f x) as [y|e]; simpl; [|done].
  destruct (collect f l) as [ys'|e]; simpl; [|done].
  intros [= <-]. simpl. f_equal. by apply IH.
Qed.

Section SubstitutionEdges.
Context {Ty : Type}.
Variable str_format : string -> list (string * string) -> Result string.
Variable rebound_inputs : Value -> Callable.

(** X10: [parametrized_input.expand_node] yields no node for an empty
    mapping; for a non-empty one it raises [KeyError] naming the target
    parameter when that parameter is not an input of the node; and when
    it succeeds it yields one node per entry. *)
Theorem parametrized_input_expand_edges (self : parametrized_input) (node_ : Node Ty) :
  (assigned_output self = [] -> parametrized_input_expand_node self node_ = Ok []) /\
  (assigned_output self <> [] ->
   input_types node_ !! parameter self = None ->
   parametrized_input_expand_node self node_ = Raise (KeyError (SStr (parameter self)))) /\
  (forall nodes,
     parametrized_input_expand_node self node_ = Ok nodes ->
     length nodes = length (assigned_output self)).
Proof.
  unfold parametrized_input_expand_node. split_and!.
  - by intros ->.
  - intros Hne Hnone. destruct (assigned_output self) as [|[ic [nm d]] rest]; [done|].
    simpl. rewrite move_key_missing; [done|].
    unfold bare_types. by rewrite lookup_fmap, Hnone.
  - intros nodes. apply collect_length.
Qed.

(** X11: the wrapper that [parametrized_input] generates raises
    [KeyError] naming the substitute when it is called without an argument
    of that name, and [TypeError] when a keyword argument named
    [input_column] carries a series or a dataframe; in neither case is the
    original implementation called. *)
Theorem new_fn_missing_argument (self : parametrized_input) (node_ : Node Ty)
    (input_column : string) args kwargs :
  (kwargs !! "input_column" = None -> kwargs !! input_column = None ->
   parametrized_input_new_fn self node_ input_column args kwargs
   = Raise (KeyError (SStr input_column))) /\
  (forall data, kwargs !! "input_column" = Some (VSeries data) ->
   parametrized_input_new_fn self node_ input_column args kwargs
   = Raise (TypeError "unhashable type")) /\
  (forall df, kwargs !! "input_column" = Some (VFrame df) ->
   parametrized_input_new_fn self node_ input_column args kwargs
   = Raise (TypeError "unhashable type")).
Proof.
  unfold parametrized_input_new_fn, keyword_only. split_and!.
  - intros Hfree Hnone. rewrite Hfree. simpl. unfold pop. by rewrite Hnone.
  - intros data Hcap. by rewrite Hcap.
  - intros df Hcap. by rewrite Hcap.
Qed.

End SubstitutionEdges.
End SubstitutionEdges.

Module SubstitutionPlural.
Import Substitution.

Lemma filter_nil_iff {A} (P : A -> Prop) `{forall x, Decision (P x)} (l : list A) :
  filter P l = [] <-> forall x, x ∈ l -> ~ P x.
Proof.
  split.
  - intros Hnil x Hx HP. by apply (filter_nil_not_elem_of P l x).
  - intros Hall. destruct (filter P l) as [|y ys] eqn:E; [done|].
    assert (y ∈ filter P l) as Hy by (rewrite E; by left).
    apply list_elem_of_filter in Hy as [HP Hy]. by destruct (Hall y Hy).
Qed.

(** X12: the constructor of [parameterized_inputs] returns a decorator
    exactly when the parameterization is non-empty and no output has an
    empty mapping, and the decorator then holds the parameterization as
    given. *)
Theorem parameterized_inputs_init_ok parameterization self :
  parameterized_inputs_init parameterization = Ok self <->
  parameterization <> [] /\
  (forall output, (output, []) ∉ parameterization) /\
  parametrization self = parameterization.
Proof.
  unfold parameterized_inputs_init.
  destruct parameterization as [|entry rest]; [by split; [|intros [? _]]|].
  assert (entry :: rest <> []) as Hne by done.
  revert Hne. generalize (entry :: rest). clear entry rest. intros l Hne.
  match goal with |- context [for_each ?b l tt] => set (body := b) end.
  assert (forall u, for_each body l u = Ok tt <-> forall output, (output, []) ∉ l) as Hloop.
  { clear Hne. induction l as [|[output [|m ms]] l IH]; intros u; simpl.
    - destruct u. split; [|done]. intros _ output Hin. by apply elem_of_nil in Hin.
    - split; [done|]. intros H. destruct (H output). by left.
    - rewrite IH. split.
      + intros H o [[=]|Hin]%elem_of_cons. by apply (H o).
      + intros H o Hin. apply (H o). by right. }
  destruct (for_each body l tt) as [[]|e] eqn:Hrun; simpl.
  - pose proof (proj1 (Hloop tt) Hrun) as Hall. destruct self as [p]. simpl. split.
    + by intros [= <-].
    + by intros (_ & _ & ->).
  - split; [done|]. intros (_ & Hall & _).
    pose proof (proj2 (Hloop tt) Hall). congruence.
Qed.

Section SubstitutionPlural.
Context {Ty : Type}.
Variable str_format : string -> list (string * string) -> Result string.
Variable rebound_inputs : Value -> Callable.

(** X13: when the docstring of the function formats for every output,
    [parameterized_inputs.validate] passes exactly when the function has
    no parameter named [output_name] and every target parameter of every
    mapping is a parameter of the function; otherwise it raises the
    invalid-decorator error. *)
Theorem parameterized_inputs_validate_passes (self : parameterized_inputs)
    (fn : Function Ty) :
  (forall output_name mapping, (output_name, mapping) ∈ parametrization self ->
     exists doc, format_doc_string str_format (__doc__ fn) output_name mapping = Ok doc) ->
  (parameterized_inputs_validate str_format self fn = Ok tt <->
   (RESERVED_KWARG ∉ (parameters fn).*1) /\
   forall output_name mapping func_param replacement_param,
     (output_name, mapping) ∈ parametrization self ->
     (func_param, replacement_param) ∈ mapping ->
     func_param ∈ (parameters fn).*1) /\
  (parameterized_inputs_validate str_format self fn <> Ok tt ->
   exists msg,
     parameterized_inputs_validate str_format self fn = Raise (InvalidDecoratorException msg)).
Proof.
  intros Hdocs. unfold parameterized_inputs_validate.
  match goal with |- context [for_each ?b (parametrization self) tt] => set (body := b) end.
  assert (for_each body (parametrization self) tt = Ok tt) as ->.
  { revert Hdocs. generalize (parametrization self). intros l Hdocs.
    induction l as [|[o m] l IH]; [done|]. simpl.
    destruct (Hdocs o m) as [doc ->]; [by left|]. simpl.
    apply IH. intros o' m' Hin. apply Hdocs. by right. }
  simpl. case_bool_decide as Hres.
  - split; [|by eexists]. split; [done|]. by intros [? _].
  - match goal with |- context [filter ?P ?l] => set (missing := filter P l) end.
    assert (missing = [] <->
            forall output_name mapping func_param replacement_param,
              (output_name, mapping) ∈ parametrization self ->
              (func_param, replacement_param) ∈ mapping ->
              func_param ∈ (parameters fn).*1) as Hmissing.
    { unfold missing. rewrite filter_nil_iff. split.
      - intros H o m f r Hom Hfr.
        destruct (decide (f ∈ (parameters fn).*1)) as [|Hnot]; [done|].
        destruct (H f); [|done].
        apply list_elem_of_In, in_concat. exists (m.*1). split.
        + apply list_elem_of_In, list_elem_of_fmap. by exists (o, m).
        + apply list_elem_of_In, list_elem_of_fmap. by exists (f, r).
      - intros H f Hin Hnot. apply Hnot.
        apply list_elem_of_In, in_concat in Hin as (ks & Hks & Hf).
        apply list_elem_of_In, list_elem_of_fmap in Hks as ([o m] & -> & Hom).
        apply list_elem_of_In, list_elem_of_fmap in Hf as ([f' r] & -> & Hfr).
        by apply (H o m f' r). }
    destruct missing as [|x xs].
    + split; [|done]. split; [|done]. intros _. split; [done|]. by apply Hmissing.
    + split; [|by eexists]. split; [done|]. intros [_ H]. by apply Hmissing in H.
Qed.

Lemma move_all_missing {A} (l : list (string * string)) (d : gmap string A) :
  NoDup l.*1 ->
  (forall s, s ∈ l.*1 -> s ∉ l.*2) ->
  (exists s, s ∈ l.*1 /\ d !! s = None) ->
  exists s, s ∈ l.*1 /\ d !! s = None /\ move_all l d = Raise (KeyError (SStr s)).
Proof.
  revert d. induction l as [|[s t] l IH]; intros d Hnd Hdisj (s0 & Hs0 & Hnone).
  { by apply elem_of_nil in Hs0. }
  simpl in *. apply NoDup_cons in Hnd as [Hs Hnd].
  destruct (d !! s) as [v|] eqn:Hv.
  - assert (s0 <> s) as Hne by congruence.
    apply elem_of_cons in Hs0 as [?|Hs0]; [done|].
    assert (forall k, k ∈ l.*1 -> <[t := v]> (delete s d) !! k = d !! k) as Hsame.
    { intros k Hk. assert (k <> s) by (intros ->; done).
      assert (t <> k). { intros ->. apply (Hdisj k); [by right|by left]. }
      by rewrite lookup_insert_ne, lookup_delete_ne. }
    destruct (IH (<[t := v]> (delete s d))) as (s1 & Hs1 & Hnone1 & Hrun).
    + done.
    + intros k Hk Hin. apply (Hdisj k); by right.
    + exists s0. split; [done|]. by rewrite Hsame.
    + exists s1. split; [by right|]. split; [by rewrite <- Hsame|].
      unfold move_all. simpl. rewrite (move_key_ok _ _ _ _ Hv). exact Hrun.
  - exists s. split; [by left|]. split; [done|].
    unfold move_all. simpl. by rewrite (move_key_missing _ _ _ Hv).
Qed.

(** X14: when a target parameter of the first mapping is not an input of
    the node (the mapping renaming distinct targets to names that are not
    targets, and its documentation formatting),
    [parameterized_inputs.expand_node] raises [KeyError] naming a target
    parameter that the node lacks. *)
Theorem parameterized_inputs_expand_missing_target (self : parameterized_inputs)
    (node_ : Node Ty) output_name mapping rest doc :
  parametrization self = (output_name, mapping) :: rest ->
  format_doc_string str_format (Some (documentation node_)) output_name mapping = Ok doc ->
  NoDup mapping.*1 ->
  (forall f, f ∈ mapping.*1 -> f ∉ mapping.*2) ->
  (exists f, f ∈ mapping.*1 /\ input_types node_ !! f = None) ->
  exists f, f ∈ mapping.*1 /\ input_types node_ !! f = None /\
    parameterized_inputs_expand_node str_format rebound_inputs self node_
    = Raise (KeyError (SStr f)).
Proof.
  intros Hpar Hdoc Hnd Hdisj (f & Hf & Hnone).
  destruct (move_all_missing mapping (bare_types (input_types node_)) Hnd Hdisj)
    as (f' & Hf' & Hnone' & Hrun).
  { exists f. split; [done|]. unfold bare_types. by rewrite lookup_fmap, Hnone. }
  exists f'. split; [done|]. split.
  - unfold bare_types in Hnone'. rewrite lookup_fmap in Hnone'.
    by destruct (input_types node_ !! f').
  - unfold parameterized_inputs_expand_node. rewrite Hpar. simpl.
    rewrite Hdoc. simpl. unfold move_all in Hrun. by rewrite Hrun.
Qed.

End SubstitutionPlural.
End SubstitutionPlural.

Lemma parameterized_inputs_validate_passes_witness :
  Substitution.parameterized_inputs_validate SubstitutionExamples.keep_template
    SubstitutionExamples.one_mapping Examples.declared_sum = Ok tt.
Proof.
  destruct (SubstitutionPlural.parameterized_inputs_validate_passes
              SubstitutionExamples.keep_template SubstitutionExamples.one_mapping
              Examples.declared_sum) as [Hiff _].
  - intros output_name mapping [[= -> ->]|[]%elem_of_nil]%elem_of_cons. by eexists.
  - apply Hiff. split.
    + intros [[=]|[[=]|[]%elem_of_nil]%elem_of_cons]%elem_of_cons.
    + intros output_name mapping f r [[= -> ->]|[]%elem_of_nil]%elem_of_cons
        [[= -> ->]|[]%elem_of_nil]%elem_of_cons. by left.
Defined.

Lemma parameterized_inputs_expand_missing_target_witness :
  exists f,
    Substitution.parameterized_inputs_expand_node SubstitutionExamples.keep_template
      SubstitutionExamples.no_items
      {| Substitution.parametrization := [("f_raw", [("c", "c_raw")])] |}
      SubstitutionExamples.node_f
    = Raise (KeyError (SStr f)).
Proof.
  destruct (SubstitutionPlural.parameterized_inputs_expand_missing_target
              SubstitutionExamples.keep_template SubstitutionExamples.no_items
              {| Substitution.parametrization := [("f_raw", [("c", "c_raw")])] |}
              SubstitutionExamples.node_f "f_raw" [("c", "c_raw")] []
              "the value of {a}") as (f & _ & _ & Hrun).
  - reflexivity.
  - reflexivity.
  - apply NoDup_singleton.
  - intros f [->|[]%elem_of_nil]%elem_of_cons [[=]|[]%elem_of_nil]%elem_of_cons.
  - exists "c". split; [by left|reflexivity].
  - by exists f.
Defined.

(** ** [extract_columns]: constructor, shape of the expansion, filling and
    extracting *)

Module ExtractColumnsShape.
Import ExtractColumns.

(** The name part of a column to extract. *)
Definition column_name (col : Column) : string :=
  match col with
  | Name column => column
  | Documented column _ => column
  end.

Lemma find_column_assign cols label data l :
  pd.find_column (pd.assign cols label data) l =
  if decide (label = l) then Some data else pd.find_column cols l.
Proof.
  induction cols as [|[l' d] cols IH]; simpl.
  - by destruct (decide (label = l)).
  - destruct (decide (l' = label)) as [->|Hne]; simpl.
    + by destruct (decide (label = l)).
    + destruct (decide (l' = l)) as [->|Hne'].
      * by rewrite decide_False by congruence.
      * apply IH.
Qed.

Lemma find_column_is_Some cols l :
  is_Some (pd.find_column cols l) <-> l ∈ cols.*1.
Proof.
  induction cols as [|[l' d] cols IH]; simpl.
  - split; [by intros [? ?]|]. intros H. by apply elem_of_nil in H.
  - destruct (decide (l' = l)) as [->|Hne].
    + split; [by left|by eexists].
    + rewrite IH, elem_of_cons. split; [by right|]. by intros [->|?].
Qed.

Lemma contains_getitem df l :
  pd.contains df l = true <-> is_Some (pd.getitem df l).
Proof.
  unfold pd.contains, pd.getitem. rewrite bool_decide_eq_true.
  symmetry. apply find_column_is_Some.
Qed.

(** One round of the filling loop. *)
Definition fill_step (self : extract_columns) (df : pd.DataFrame) (col : Column)
    : pd.DataFrame :=
  if negb (pd.contains df (as_label col))
  then pd.setitem df (as_label col) (fill_with self)
  else df.

Lemma fill_step_spec self df col :
  pd.index_len (fill_step self df col) = pd.index_len df /\
  (forall l, pd.contains df l = true ->
     pd.getitem (fill_step self df col) l = pd.getitem df l) /\
  pd.getitem (fill_step self df col) (as_label col) =
    Some (default (replicate (pd.index_len df) (fill_with self))
            (pd.getitem df (as_label col))) /\
  (forall l, l <> as_label col ->
     pd.getitem (fill_step self df col) l = pd.getitem df l).
Proof.
  unfold fill_step. destruct (pd.contains df (as_label col)) eqn:Hc; simpl.
  - split_and!; try done.
    apply contains_getitem in Hc as [d Hd]. by rewrite Hd.
  - assert (pd.getitem df (as_label col) = None) as Hnone.
    { destruct (pd.getitem df (as_label col)) eqn:E; [|done].
      assert (pd.contains df (as_label col) = true) by (apply contains_getitem; by eexists).
      congruence. }
    unfold pd.getitem in *. simpl. split_and!; [done| | |].
    + intros l Hl. rewrite find_column_assign.
      destruct (decide (as_label col = l)) as [<-|]; [congruence|done].
    + rewrite find_column_assign, decide_True by done. by rewrite Hnone.
    + intros l Hl. rewrite find_column_assign. by rewrite decide_False.
Qed.

Lemma fill_missing_fold self df :
  fill_missing self df = foldl (fill_step self) df (columns self).
Proof. done. Qed.

Lemma fold_fill_keeps self cols df :
  pd.index_len (foldl (fill_step self) df cols) = pd.index_len df /\
  (forall l, pd.contains df l = true ->
     pd.getitem (foldl (fill_step self) df cols) l = pd.getitem df l).
Proof.
  revert df. induction cols as [|c cols IH]; intros df; simpl; [done|].
  destruct (fill_step_spec self df c) as (Hlen & Hkeep & Hnew & _).
  destruct (IH (fill_step self df c)) as [IHlen IHkeep]. split.
  - by rewrite IHlen.
  - intros l Hl. rewrite IHkeep.
    + by apply Hkeep.
    + apply contains_getitem. rewrite (Hkeep l Hl). by apply contains_getitem.
Qed.

Lemma fold_fill_value self cols df col :
  col ∈ cols ->
  pd.getitem (foldl (fill_step self) df cols) (as_label col) =
  Some (default (replicate (pd.index_len df) (fill_with self))
          (pd.getitem df (as_label col))).
Proof.
  revert df. induction cols as [|c cols IH]; intros df Hin.
  { by apply elem_of_nil in Hin. }
  simpl. destruct (fill_step_spec self df c) as (Hlen & Hkeep & Hnew & Hother).
  destruct (decide (as_label c = as_label col)) as [Heq|Hne].
  - destruct (fold_fill_keeps self cols (fill_step self df c)) as [_ Hk].
    rewrite Hk.
    + by rewrite <- Heq.
    + apply contains_getitem. rewrite <- Heq, Hnew. by eexists.
  - apply elem_of_cons in Hin as [->|Hin]; [done|].
    rewrite (IH _ Hin), Hlen. by rewrite Hother.
Qed.

Lemma fold_fill_contains self cols df col :
  col ∈ cols -> pd.contains (foldl (fill_step self) df cols) (as_label col) = true.
Proof.
  intros Hin. apply contains_getitem. rewrite (fold_fill_value self cols df col Hin).
  by eexists.
Qed.

Section ExtractColumnsShape.
Context {Ty : Type}.
Variables pd_DataFrame pd_Series : Ty.
Variable str_Index : list Label -> string.
Variable signature_input_types : Callable -> gmap string (Ty * DependencyType).

(** X15: the constructor of [extract_columns] returns a decorator exactly
    for a non-empty sequence of columns, with those columns and the fill
    default as given; no columns, or a list in first position, is
    rejected with the invalid-decorator error. *)
Theorem extract_columns_init_ok columns_ fill_with_ :
  (forall self,
     init columns_ fill_with_ = Ok self <->
     exists cs, columns_ = Columns cs /\ cs <> [] /\
                self = {| columns := cs; fill_with := fill_with_ |}) /\
  ((exists msg, init columns_ fill_with_ = Raise (InvalidDecoratorException msg)) <->
   columns_ = Columns [] \/ exists first rest, columns_ = ListPassed first rest).
Proof.
  destruct columns_ as [[|c cs]|first rest]; simpl; split.
  - intros self. split; [done|]. by intros (cs & [= <-] & ? & _).
  - split; [by left|by eexists].
  - intros self. split.
    + intros [= <-]. by exists (c :: cs).
    + by intros (cs' & [= <-] & _ & ->).
  - split; [by intros [? ?]|]. by intros [|(? & ? & ?)].
  - intros self. split; [done|]. by intros (cs & [=] & _).
  - split; [|by eexists]. intros _. right. by exists first, rest.
Qed.

(** X16: [extract_columns.expand_node] yields one node more than there
    are columns.  The first has the name, documentation and tags of the
    original node, the dataframe type, and the filling wrapper of the
    original implementation; the node of each column has the column's
    name, the series type, the documentation given with the column or
    else that of the original node, the tags of the original node, and the
    first node as its only input, of dataframe type. *)
Theorem extract_columns_expand_shape (self : extract_columns) (node_ : Node Ty) :
  let nodes := expand_node pd_DataFrame pd_Series str_Index signature_input_types self node_ in
  length nodes = S (length (columns self)) /\
  (exists base, nodes !! 0 = Some base /\
     name base = name node_ /\ type base = pd_DataFrame /\
     documentation base = documentation node_ /\ tags base = tags node_ /\
     callable base = df_generator self (callable node_)) /\
  (forall i col, columns self !! i = Some col ->
     exists n, nodes !! S i = Some n /\
       name n = column_name col /\ type n = pd_Series /\
       documentation n = match col with
                         | Documented _ doc_string => doc_string
                         | Name _ => documentation node_
                         end /\
       tags n = tags node_ /\
       input_types n = {[ name node_ := (pd_DataFrame, REQUIRED) ]} /\
       callable n = extractor_fn str_Index node_ (column_name col)).
Proof.
  cbv zeta. unfold expand_node. split_and!.
  - simpl. by rewrite length_map.
  - eexists. split; [reflexivity|]. done.
  - intros i col Hcol. simpl. rewrite list_lookup_fmap, Hcol. simpl.
    eexists. split; [reflexivity|].
    destruct col; simpl; split_and!; try done; by rewrite map_fmap_singleton.
Qed.

(** X17: the base node of [extract_columns] passes on an exception of the
    original function, and without a fill default its result; with a fill
    default it returns a dataframe with the same index in which every
    column of the original result has its data unchanged. *)
Theorem df_generator_keeps_columns (self : extract_columns) (fn : Callable) args kwargs :
  (forall e, fn args kwargs = Raise e -> df_generator self fn args kwargs = Raise e) /\
  (forall v, fn args kwargs = Ok v -> fill_with self = SNone ->
     df_generator self fn args kwargs = Ok v) /\
  (forall df, fn args kwargs = Ok (VFrame df) -> fill_with self <> SNone ->
     exists out,
       df_generator self fn args kwargs = Ok (VFrame out) /\
       pd.index_len out = pd.index_len df /\
       forall l, pd.contains df l = true -> pd.getitem out l = pd.getitem df l).
Proof.
  unfold df_generator. split_and!.
  - by intros e ->.
  - intros v -> Hnone. simpl. by rewrite bool_decide_eq_false_2 by (intros H; done).
  - intros df -> Hfill. simpl. rewrite bool_decide_eq_true_2 by done. simpl.
    eexists. split; [reflexivity|]. rewrite fill_missing_fold.
    apply fold_fill_keeps.
Qed.

(** X18: filling is idempotent: filling a dataframe that was already
    filled for the same columns changes nothing. *)
Theorem fill_missing_idempotent (self : extract_columns) (df : pd.DataFrame) :
  fill_missing self (fill_missing self df) = fill_missing self df.
Proof.
  assert (forall cols d,
            (forall col, col ∈ cols -> pd.contains d (as_label col) = true) ->
            foldl (fill_step self) d cols = d) as Hnoop.
  { induction cols as [|c cols IH]; intros d Hall; simpl; [done|].
    assert (fill_step self d c = d) as ->.
    { unfold fill_step. rewrite (Hall c); [done|by left]. }
    apply IH. intros col Hcol. apply Hall. by right. }
  rewrite (fill_missing_fold self (fill_missing self df)).
  apply Hnoop. intros col Hcol. rewrite fill_missing_fold. by apply fold_fill_contains.
Qed.

(** X19: called with the dataframe of the base node, the extractor of a
    column returns that column's data when the dataframe has it and
    raises the invalid-decorator error otherwise; called without the
    dataframe it raises [KeyError] naming the base node. *)
Theorem extractor_fn_result (node_ : Node Ty) (column : string) kwargs :
  kwargs !! "column_to_extract" = None ->
  (kwargs !! name node_ = None ->
   extractor_fn str_Index node_ column [] kwargs = Raise (KeyError (SStr (name node_)))) /\
  (forall df, kwargs !! name node_ = Some (VFrame df) ->
   extractor_fn str_Index node_ column [] kwargs =
   match pd.getitem df (LStr column) with
   | Some data => Ok (VSeries data)
   | None => Raise (InvalidDecoratorException
               (no_such_column str_Index (LStr column) (name node_) df))
   end).
Proof.
  intros Hfree. unfold extractor_fn, positional_or_keyword, subscript.
  rewrite Hfree. simpl. split.
  - by intros ->.
  - intros df ->. simpl.
    destruct (pd.contains df (LStr column)) eqn:Hc; simpl.
    + apply contains_getitem in Hc as [data Hdata]. by rewrite Hdata.
    + destruct (pd.getitem df (LStr column)) eqn:E; [|done].
      assert (pd.contains df (LStr column) = true) by (apply contains_getitem; by eexists).
      congruence.
Qed.

(** X20: with a fill default, the extractor of a column requested by its
    bare name, given the dataframe of the base node, returns the data the
    original result has for that column, or a series of the fill value as
    long as the index when the original result lacks the column. *)
Theorem filled_column_value (self : extract_columns) (node_ : Node Ty)
    (column : string) args kwargs df :
  fill_with self <> SNone ->
  Name column ∈ columns self ->
  name node_ <> "column_to_extract" ->
  callable node_ args kwargs = Ok (VFrame df) ->
  exists filled,
    df_generator self (callable node_) args kwargs = Ok (VFrame filled) /\
    extractor_fn str_Index node_ column [] {[ name node_ := VFrame filled ]} =
      Ok (VSeries (default (replicate (pd.index_len df) (fill_with self))
                     (pd.getitem df (LStr column)))).
Proof.
  intros Hfill Hin Hname Hrun. exists (fill_missing self df). split.
  - unfold df_generator. rewrite Hrun. simpl. by rewrite bool_decide_eq_true_2.
  - unfold extractor_fn, positional_or_keyword, subscript.
    pose proof (fold_fill_contains self (columns self) df (Name column) Hin) as Hc.
    pose proof (fold_fill_value self (columns self) df (Name column) Hin) as Hv.
    rewrite <- fill_missing_fold in Hc, Hv. unfold pd.getitem in Hv. simpl in Hc, Hv.
    rewrite lookup_singleton_ne by done. simpl. rewrite lookup_singleton_eq. simpl.
    rewrite Hc. simpl. unfold pd.getitem. by rewrite Hv.
Qed.

End ExtractColumnsShape.
End ExtractColumnsShape.

Lemma extractor_fn_result_witness :
  ExtractColumns.extractor_fn ExtractColumnsExamples.str_Index ExtractColumnsExamples.source
    "x" []
    {[ "source" := VFrame {| pd.index_len := 2;
                             pd.columns := [(LStr "x", [SInt 1; SInt 2])] |} ]}
  = Ok (VSeries [SInt 1; SInt 2]).
Proof.
  destruct (ExtractColumnsShape.extractor_fn_result ExtractColumnsExamples.str_Index
              ExtractColumnsExamples.source "x"
              {[ "source" := VFrame {| pd.index_len := 2;
                                       pd.columns := [(LStr "x", [SInt 1; SInt 2])] |} ]})
    as [_ H].
  - by rewrite lookup_singleton_ne.
  - rewrite (H {| pd.index_len := 2; pd.columns := [(LStr "x", [SInt 1; SInt 2])] |});
      [reflexivity|]. by rewrite lookup_singleton_eq.
Defined.

Lemma filled_column_value_witness :
  exists filled,
    ExtractColumns.df_generator ExtractColumnsExamples.named_a
      (callable ExtractColumnsExamples.source) [] ∅ = Ok (VFrame filled) /\
    ExtractColumns.extractor_fn ExtractColumnsExamples.str_Index
      ExtractColumnsExamples.source "a" [] {[ "source" := VFrame filled ]}
    = Ok (VSeries [SInt 0; SInt 0]).
Proof.
  apply (ExtractColumnsShape.filled_column_value ExtractColumnsExamples.str_Index
           ExtractColumnsExamples.named_a ExtractColumnsExamples.source "a" [] ∅
           {| pd.index_len := 2; pd.columns := [(LStr "x", [SInt 1; SInt 2])] |}).
  - discriminate.
  - by left.
  - discriminate.
  - reflexivity.
Defined.

(** ** [extract_fields]: constructor, filling and extracting *)

Module ExtractFieldsDicts.
Import ExtractFields.

Section ExtractFieldsDicts.
Context {Ty : Type}.

Definition as_item (field : string * Ty) : Scalar * FieldType :=
  (SStr field.1, IsType field.2).

Lemma field_errors_nil (item : Scalar * @FieldType Ty) :
  field_errors item = [] <-> exists field, item = as_item field.
Proof.
  destruct item as [[| | |s] [t|v]]; simpl; split; try done;
    try (by intros ([? ?] & [=])).
  intros _. by exists (s, t).
Qed.

Lemma length_checked (items : list (Scalar * @FieldType Ty)) :
  length (omap checked_field items) <= length items.
Proof.
  induction items as [|item items IH]; [done|].
  change (omap checked_field (item :: items))
    with (match checked_field item with
          | Some y => y :: omap checked_field items
          | None => omap checked_field items
          end).
  destruct (checked_field item); simpl length; lia.
Qed.

Lemma flat_map_errors_nil (items : list (Scalar * @FieldType Ty)) :
  flat_map field_errors items = [] <-> items = as_item <$> omap checked_field items.
Proof.
  induction items as [|item items IH]; [done|].
  change (flat_map field_errors (item :: items))
    with (field_errors item ++ flat_map field_errors items)%list.
  change (omap checked_field (item :: items))
    with (match checked_field item with
          | Some y => y :: omap checked_field items
          | None => omap checked_field items
          end).
  split.
  - intros [H1 H2]%app_eq_nil. apply field_errors_nil in H1 as [[f t] ->].
    cbn [checked_field as_item fst snd]. rewrite fmap_cons. f_equal. by apply IH.
  - destruct (checked_field item) as [[f t]|] eqn:Hitem.
    + destruct item as [[| | |s] [t'|v]]; try discriminate Hitem.
      injection Hitem as -> ->. rewrite fmap_cons. intros [= Heq].
      cbn [field_errors is_str negb app]. by apply IH.
    + intros Heq. apply (f_equal length) in Heq.
      rewrite length_fmap in Heq. simpl length in Heq.
      pose proof (length_checked items). lia.
Qed.

Lemma omap_checked_as_item (fs : list (string * Ty)) :
  omap checked_field (as_item <$> fs) = fs.
Proof. induction fs as [|[f t] fs IH]; [done|]. simpl. f_equal. exact IH. Qed.

(** X21: the constructor of [extract_fields] returns a decorator exactly
    for a non-empty dict whose keys are all strings and whose values are
    all types, and the decorator then holds those fields in order with the
    fill default as given; anything that is not a dict is rejected with
    the invalid-decorator error. *)
Theorem extract_fields_init_ok (items : list (Scalar * @FieldType Ty)) fill_with_ :
  (forall self,
     init (Dict items) fill_with_ = Ok self <->
     items <> [] /\ items = as_item <$> fields self /\ fill_with self = fill_with_) /\
  (forall v, exists msg,
     init (@NotDict Ty v) fill_with_ = Raise (InvalidDecoratorException msg)).
Proof.
  split.
  - intros [fs fw]. simpl. unfold init.
    destruct items as [|item items]; [by split; [|intros [? _]]|].
    destruct (flat_map field_errors (item :: items)) as [|err errs] eqn:Herr.
    + apply flat_map_errors_nil in Herr. split.
      * intros [= <- <-]. done.
      * intros (_ & Heq & <-). f_equal. f_equal.
        rewrite Heq at 1. apply omap_checked_as_item.
    + split; [done|]. intros (_ & Heq & _).
      assert (flat_map field_errors (item :: items) = []) as Hnil.
      { apply flat_map_errors_nil. rewrite Heq at 2. by rewrite omap_checked_as_item. }
      congruence.
  - intros v. unfold init. destruct (falsy v); by eexists.
Qed.

(** What [list(dt.keys())] prints as, for the dict [dt]. *)
Variable repr_keys : gmap string Scalar -> string.

(** The loop of [dict_generator] over [self.fields], on the dict the
    function returned. *)
Definition fill_missing_fields (self : @extract_fields Ty)
    (dict_generated : gmap string Scalar) : gmap string Scalar :=
  foldl (fun d field =>
           if bool_decide (d !! field.1 = None)
           then <[field.1 := fill_with self]> d
           else d)
        dict_generated (fields self).

(** The wrapper [dict_generator] of [extract_fields.expand_node], for a
    function that returns a dict of scalars. *)
Definition dict_generator (self : @extract_fields Ty)
    (fn : list Value -> gmap string Value -> Result (gmap string Scalar))
    : list Value -> gmap string Value -> Result (gmap string Scalar) :=
  fun args kwargs =>
    dict_generated ← fn args kwargs;
    if bool_decide (fill_with self <> SNone)
    then Ok (fill_missing_fields self dict_generated)
    else Ok dict_generated.

Definition no_such_field (field node_name : string) (dt : gmap string Scalar) : string :=
  "No such field: " +:+ field +:+ " produced by " +:+ node_name
    +:+ ". It only produced " +:+ repr_keys dt.

(** The function [extractor_fn] of [extract_fields.expand_node], called
    with keyword arguments that are dicts of scalars: a keyword argument
    named [field_to_extract] binds the parameter of that name, and a dict
    cannot be looked up in a dict. *)
Definition extractor_fn (node_name field : string)
    (kwargs : gmap string (gmap string Scalar)) : Result Scalar :=
  let rebound := kwargs !! "field_to_extract" in
  let kwargs := delete "field_to_extract" kwargs in
  dt ← subscript kwargs node_name;
  match rebound with
  | Some _ => Raise (TypeError "unhashable type: 'dict'")
  | None =>
      match dt !! field with
      | None => Raise (InvalidDecoratorException (no_such_field field node_name dt))
      | Some value => Ok value
      end
  end.

Lemma fold_fill_fields (self : @extract_fields Ty) (fs : list (string * Ty))
    (d : gmap string Scalar) (key : string) :
  foldl (fun d field =>
           if bool_decide (d !! field.1 = None)
           then <[field.1 := fill_with self]> d
           else d) d fs !! key =
  match d !! key with
  | Some v => Some v
  | None => if bool_decide (key ∈ fs.*1) then Some (fill_with self) else None
  end.
Proof.
  revert d. induction fs as [|[f t] fs IH]; intros d.
  - simpl. by destruct (d !! key).
  - simpl (foldl _ _ _). rewrite IH, fmap_cons. cbn [fst].
    destruct (bool_decide (d !! f = None)) eqn:Hf.
    + apply bool_decide_eq_true in Hf.
      destruct (decide (f = key)) as [->|Hne].
      * rewrite lookup_insert_eq, Hf. by rewrite bool_decide_eq_true_2 by (by left).
      * rewrite lookup_insert_ne by done. destruct (d !! key); [done|].
        rewrite (bool_decide_ext (key ∈ f :: fs.*1) (key ∈ fs.*1)); [done|].
        rewrite elem_of_cons. split; [|by right]. intros [->|?]; done.
    + apply bool_decide_eq_false in Hf.
      destruct (d !! key) eqn:Hk; [done|].
      rewrite (bool_decide_ext (key ∈ f :: fs.*1) (key ∈ fs.*1)); [done|].
      rewrite elem_of_cons.
      split; [|by right]. intros [->|?]; [congruence|done].
Qed.

(** X22: with a fill default, the dict the base node of [extract_fields]
    returns has every key of the original dict with its value, every
    declared field that was missing with the fill value, and no other
    key; so extracting a declared field from it succeeds, with the
    original value when there was one.  Without a fill default the dict
    is returned as it is. *)
Theorem dict_generator_fills_fields (self : @extract_fields Ty) fn args kwargs d :
  fn args kwargs = Ok d ->
  (fill_with self = SNone -> dict_generator self fn args kwargs = Ok d) /\
  (fill_with self <> SNone ->
   exists filled,
     dict_generator self fn args kwargs = Ok filled /\
     (forall key, filled !! key =
        match d !! key with
        | Some v => Some v
        | None => if bool_decide (key ∈ (fields self).*1)
                  then Some (fill_with self) else None
        end) /\
     (forall node_name field, field ∈ (fields self).*1 ->
        node_name <> "field_to_extract" ->
        extractor_fn node_name field {[ node_name := filled ]}
        = Ok (default (fill_with self) (d !! field)))).
Proof.
  intros Hrun. unfold dict_generator. rewrite Hrun. simpl. split.
  - intros Hnone. by rewrite bool_decide_eq_false_2 by (intros H; done).
  - intros Hfill. rewrite bool_decide_eq_true_2 by done.
    eexists. split; [reflexivity|]. split.
    + intros key. apply fold_fill_fields.
    + intros node_name field Hin Hname. unfold extractor_fn, subscript.
      rewrite lookup_singleton_ne by done.
      rewrite delete_singleton_ne by done. rewrite lookup_singleton_eq. simpl.
      unfold fill_missing_fields. rewrite fold_fill_fields.
      destruct (d !! field); [done|]. by rewrite bool_decide_eq_true_2.
Qed.

(** X23: the extractor of a field raises [KeyError] naming the base node
    when it is called without the dict of the base node, and the
    invalid-decorator error naming the field, the node and the keys of the
    dict when the dict lacks the field. *)
Theorem field_extractor_errors node_name field kwargs :
  kwargs !! "field_to_extract" = None ->
  (kwargs !! node_name = None ->
   extractor_fn node_name field kwargs = Raise (KeyError (SStr node_name))) /\
  (forall dt, kwargs !! node_name = Some dt -> dt !! field = None ->
   extractor_fn node_name field kwargs =
     Raise (InvalidDecoratorException (no_such_field field node_name dt)) /\
   Str.occurs_in field (no_such_field field node_name dt) /\
   Str.occurs_in (repr_keys dt) (no_such_field field node_name dt)).
Proof.
  intros Hfree. unfold extractor_fn, subscript. rewrite Hfree.
  rewrite delete_id by done. split.
  - by intros ->.
  - intros dt -> Hnone. simpl. rewrite Hnone. split_and!; [done| |].
    + unfold no_such_field.
      apply Str.occurs_in_append_r, Str.occurs_in_append_l, Str.occurs_in_refl.
    + unfold no_such_field. do 5 apply Str.occurs_in_append_r. apply Str.occurs_in_refl.
Qed.

End ExtractFieldsDicts.
End ExtractFieldsDicts.

(** ** [does] and [dynamic_transform]: parameters of the replacement, and
    the generated node *)

Module DoesNodes.
Import Does.

Section DoesNodes.
Context {Ty : Type}.
Variable issubclass : Ty -> Ty -> Result bool.
Variable pd_Series : Ty.
Variable repr_type : Ty -> string.
Variables _empty_function _empty_function_with_docstring : Function Ty.

(** What calling a function object does. *)
Variable call_of : Function Ty -> Callable.

(** [{key: value.annotation for key, value in parameters.items()}] *)
Definition annotations (params : list (string * Param Ty)) : gmap string (InputType Ty) :=
  foldl (fun m kp => <[kp.1 := Bare (annotation kp.2)]> m) ∅ params.

(** [does.generate_node] *)
Definition generate_node (self : does) (fn : Function Ty) : Node Ty :=
  Node_ (__name__ fn)
    (return_annotation fn)
    (match __doc__ fn with Some doc => doc | None => "" end)
    (call_of (replacing_function self))
    STANDARD
    (annotations (parameters fn))
    (get_default_tags fn).

(** X24: on a function that passes the emptiness check, [does.validate]
    judges the parameters of the replacement before its return type: a
    replacement
    without any parameter fails with the [ValueError] of unpacking, one
    with several parameters or with a single parameter that is not
    [**kwargs] fails with the invalid-decorator error. *)
Theorem does_validate_parameter_errors (self : does) (fn : Function Ty) :
  ensure_function_empty _empty_function _empty_function_with_docstring fn = Ok tt ->
  (parameters (replacing_function self) = [] ->
   validate issubclass repr_type _empty_function _empty_function_with_docstring self fn
   = Raise (ValueError "not enough values to unpack (expected 1, got 0)")) /\
  (1 < length (parameters (replacing_function self)) ->
   validate issubclass repr_type _empty_function _empty_function_with_docstring self fn
   = Raise (InvalidDecoratorException
              "Too many parameters -- for now @does can only use **kwarg functions.")) /\
  (forall pname parameter,
     parameters (replacing_function self) = [(pname, parameter)] ->
     kind parameter <> VAR_KEYWORD ->
     validate issubclass repr_type _empty_function _empty_function_with_docstring self fn
     = Raise (InvalidDecoratorException
                "Must have only one parameter, and that parameter must be a **kwargs parameter.")).
Proof.
  intros Hempty.
  unfold validate. rewrite Hempty. simpl. unfold ensure_function_kwarg_only.
  split_and!.
  - by intros ->.
  - intros Hlen. by rewrite bool_decide_eq_true_2.
  - intros pname parameter -> Hkind. simpl.
    by rewrite (bool_decide_eq_false_2 (kind parameter = VAR_KEYWORD)).
Qed.

(** X25: [dynamic_transform.validate] runs its checks in order.  A
    function whose bytecode is that of neither reference function gets
    the "not empty" error whatever its type and parameters; past that
    check an exception of [issubclass] escapes, a return type that is not
    a subclass of the series type is refused before the parameters are
    looked at, and then any parameter is refused.  With the reference
    functions compiled from [pass] without and with a docstring, a
    function compiled from a one-statement body, be it [pass] or the
    return of a constant, passes exactly when its return type is a
    subclass of the series type and it has no parameter. *)
Theorem dynamic_transform_validate_ok (fn : Function Ty) :
  (co_code fn <> co_code _empty_function ->
   co_code fn <> co_code _empty_function_with_docstring ->
   dynamic_transform_validate issubclass pd_Series _empty_function
     _empty_function_with_docstring fn
   = Raise (InvalidDecoratorException (not_empty_message fn))) /\
  (ensure_function_empty _empty_function _empty_function_with_docstring fn = Ok tt ->
   (forall e, issubclass (return_annotation fn) pd_Series = Raise e ->
      dynamic_transform_validate issubclass pd_Series _empty_function
        _empty_function_with_docstring fn = Raise e) /\
   (issubclass (return_annotation fn) pd_Series = Ok false ->
      dynamic_transform_validate issubclass pd_Series _empty_function
        _empty_function_with_docstring fn
      = Raise (InvalidDecoratorException
                 "Models must declare their return type as a pandas Series")) /\
   (issubclass (return_annotation fn) pd_Series = Ok true -> parameters fn <> [] ->
      dynamic_transform_validate issubclass pd_Series _empty_function
        _empty_function_with_docstring fn
      = Raise (InvalidDecoratorException
                 "Models must have no parameters -- all are passed in through the config"))) /\
  (forall docstring doc s,
     co_code _empty_function = Bytecode.compile None Bytecode.Pass ->
     co_code _empty_function_with_docstring
       = Bytecode.compile (Some docstring) Bytecode.Pass ->
     co_code fn = Bytecode.compile doc s ->
     (dynamic_transform_validate issubclass pd_Series _empty_function
        _empty_function_with_docstring fn = Ok tt <->
      issubclass (return_annotation fn) pd_Series = Ok true /\ parameters fn = [])).
Proof.
  assert (ensure_function_empty _empty_function _empty_function_with_docstring fn = Ok tt ->
          (dynamic_transform_validate issubclass pd_Series _empty_function
             _empty_function_with_docstring fn = Ok tt <->
           issubclass (return_annotation fn) pd_Series = Ok true /\ parameters fn = []))
    as Hpast.
  { intros Hempty. unfold dynamic_transform_validate. rewrite Hempty. simpl.
    destruct (issubclass _ _) as [[|]|e]; simpl;
      [|by split; [|intros [? _]]|by split; [|intros [? _]]].
    destruct (parameters fn) as [|p ps]; cbn [length].
    - by rewrite (bool_decide_eq_false_2 (0 < 0)) by lia.
    - rewrite (bool_decide_eq_true_2 (0 < S (length ps))) by lia.
      by split; [|intros [_ ?]]. }
  unfold dynamic_transform_validate. split_and!.
  - intros H1 H2. by rewrite (ensure_function_empty_fails _ _ _ H1 H2).
  - intros Hempty. rewrite Hempty. simpl. split_and!.
    + by intros e ->.
    + by intros ->.
    + intros -> Hparams. simpl. destruct (parameters fn) as [|p ps]; [done|].
      cbn [length]. by rewrite (bool_decide_eq_true_2 (0 < S (length ps))) by lia.
  - intros docstring doc s H1 H2 Hfn. apply Hpast.
    by apply (ensure_function_empty_compiled _ _ fn docstring doc s).
Qed.

Lemma annotations_lookup (params : list (string * Param Ty)) (m : gmap string (InputType Ty)) key :
  NoDup params.*1 ->
  foldl (fun m kp => <[kp.1 := Bare (annotation kp.2)]> m) m params !! key =
  match list_find (fun kp => kp.1 = key) params with
  | Some (_, kp) => Some (Bare (annotation kp.2))
  | None => m !! key
  end.
Proof.
  revert m. induction params as [|[k p] params IH]; intros m Hnd; [done|].
  rewrite fmap_cons in Hnd. apply NoDup_cons in Hnd as [Hk Hnd].
  simpl (foldl _ _ _). rewrite (IH _ Hnd). cbn [fst snd].
  cbn [list_find]. cbn [fst]. destruct (decide (k = key)) as [->|Hne].
  - destruct (list_find (fun kp => kp.1 = key) params) as [[i [k' p']]|] eqn:Hfind.
    + apply list_find_Some in Hfind as (Hi & Hk' & _). simpl in Hk'. subst k'.
      destruct Hk. apply list_elem_of_fmap. exists (key, p'). split; [done|].
      by apply list_elem_of_lookup_2 in Hi.
    + simpl. by rewrite lookup_insert_eq.
  - destruct (list_find (fun kp => kp.1 = key) params) as [[i [k' p']]|]; simpl; [done|].
    by rewrite lookup_insert_ne.
Qed.

Lemma NoDup_fst_functional (l : list (string * Param Ty)) key p p' :
  NoDup l.*1 -> (key, p) ∈ l -> (key, p') ∈ l -> p = p'.
Proof.
  induction l as [|[k q] l IH]; intros Hnd H1 H2; [by apply elem_of_nil in H1|].
  rewrite fmap_cons in Hnd. apply NoDup_cons in Hnd as [Hk Hnd].
  apply elem_of_cons in H1 as [H1|H1]; apply elem_of_cons in H2 as [H2|H2].
  - congruence.
  - injection H1 as -> ->. destruct Hk. apply list_elem_of_fmap. by exists (k, p').
  - injection H2 as -> ->. destruct Hk. apply list_elem_of_fmap. by exists (k, p).
  - by apply IH.
Qed.

(** X26: the node [does] generates for a function with distinct parameter
    names has the name and return type of the function, its docstring or
    the empty string, the replacement as its implementation, the default
    tag of the function's module, and as inputs exactly the function's
    parameters, each a required dependency of its annotated type. *)
Theorem does_generate_node_inputs (self : does) (fn : Function Ty) :
  NoDup (parameters fn).*1 ->
  let n := generate_node self fn in
  name n = __name__ fn /\ type n = return_annotation fn /\
  callable n = call_of (replacing_function self) /\
  documentation n = default "" (__doc__ fn) /\
  tags n = {[ "module" := Plain (SStr (__module__ fn)) ]} /\
  (forall key p, (key, p) ∈ parameters fn ->
     input_types n !! key = Some (annotation p, REQUIRED)) /\
  (forall key, key ∉ (parameters fn).*1 -> input_types n !! key = None).
Proof.
  intros Hnd n. subst n. unfold generate_node. simpl.
  split_and!; try done.
  - intros key p Hin. rewrite lookup_fmap. unfold annotations.
    rewrite (annotations_lookup _ _ key Hnd).
    destruct (list_find (fun kp => kp.1 = key) (parameters fn)) as [[i [k' p']]|] eqn:Hfind.
    + apply list_find_Some in Hfind as (Hi & Hk' & _). simpl in Hk'. subst k'. simpl.
      apply list_elem_of_lookup_2 in Hi.
      by rewrite (NoDup_fst_functional _ _ _ _ Hnd Hi Hin).
    + apply list_find_None in Hfind. rewrite Forall_forall in Hfind.
      by destruct (Hfind (key, p) Hin).
  - intros key Hkey. rewrite lookup_fmap. unfold annotations.
    rewrite (annotations_lookup _ _ key Hnd).
    destruct (list_find (fun kp => kp.1 = key) (parameters fn)) as [[i [k' p']]|] eqn:Hfind;
      [|done].
    apply list_find_Some in Hfind as (Hi & Hk' & _). simpl in Hk'. subst k'.
    destruct Hkey. apply list_elem_of_fmap. exists (key, p'). split; [done|].
    by apply list_elem_of_lookup_2 in Hi.
Qed.

End DoesNodes.
End DoesNodes.

(** ** [tag]: stacked decorators, and keys read by their components *)

Module TagLaws.
Import Tag.

Section TagCompose.
Context {Ty : Type}.

(** X27: decorating twice is decorating once with the two tag maps merged,
    the tags of the decorator applied first winning on a common key;
    applying the same decorator again changes nothing; and a decorator
    without tags returns a node equal to its input. *)
Theorem decorate_node_compose (outer inner : tag) (node_ : Node Ty) :
  decorate_node outer (decorate_node inner node_)
    = decorate_node {| tags := tags inner ∪ tags outer |} node_ /\
  decorate_node inner (decorate_node inner node_) = decorate_node inner node_ /\
  decorate_node {| tags := ∅ |} node_ = node_.
Proof.
  unfold decorate_node, update, Node_. cbn.
  rewrite !stored_Stored. split_and!.
  - f_equal. by rewrite (assoc_L (∪)).
  - f_equal. by rewrite <- (assoc_L (∪)), (idemp_L (∪)).
  - destruct node_; cbn. f_equal. by rewrite (right_id_L ∅ (∪)).
Qed.

End TagCompose.

Section TagKeys.
Variable isidentifier : string -> bool.

(** The string has no dot in it. *)
Definition dot_free (s : string) : Prop :=
  forall before after, s <> before +:+ "." +:+ after.

Lemma dot_free_cons c s :
  dot_free (String c s) -> c <> "."%char /\ dot_free s.
Proof.
  intros Hfree. split.
  - intros ->. by apply (Hfree "" s).
  - intros before after ->. by apply (Hfree (String c before) after).
Qed.

Lemma split_dot_free s : dot_free s -> Str.split "." s = [s].
Proof.
  induction s as [|c s IH]; intros Hfree; [done|].
  apply dot_free_cons in Hfree as [Hc Hfree]. cbn [Str.split].
  rewrite (proj2 (Ascii.eqb_neq c ".") Hc). by rewrite (IH Hfree).
Qed.

Lemma split_first_component first rest :
  dot_free first ->
  Str.split "." (first +:+ "." +:+ rest) = first :: Str.split "." rest.
Proof.
  induction first as [|c s IH]; intros Hfree; [done|].
  apply dot_free_cons in Hfree as [Hc Hfree].
  change (String c s +:+ "." +:+ rest) with (String c (s +:+ "." +:+ rest)).
  cbn [Str.split]. rewrite (proj2 (Ascii.eqb_neq c ".") Hc). by rewrite (IH Hfree).
Qed.

(** X28: a key without a dot is allowed exactly when it is an identifier
    that is not a reserved name; a key whose first component is [first] is
    allowed exactly when [first] is an identifier that is not reserved and
    every later component is an identifier, so that reserved names are
    refused in the first position only. *)
Theorem key_allowed_by_components :
  (forall key, dot_free key ->
     _key_allowed isidentifier key
     = negb (bool_decide (key ∈ RESERVED_TAG_NAMESPACES)) && isidentifier key) /\
  (forall first rest, dot_free first ->
     _key_allowed isidentifier (first +:+ "." +:+ rest)
     = negb (bool_decide (first ∈ RESERVED_TAG_NAMESPACES)) && isidentifier first
       && forallb isidentifier (Str.split "." rest)) /\
  (forall first reserved, dot_free first -> reserved ∈ RESERVED_TAG_NAMESPACES ->
     _key_allowed isidentifier (first +:+ "." +:+ reserved)
     = negb (bool_decide (first ∈ RESERVED_TAG_NAMESPACES)) && isidentifier first
       && isidentifier reserved).
Proof.
  assert (forall first rest, dot_free first ->
     _key_allowed isidentifier (first +:+ "." +:+ rest)
     = negb (bool_decide (first ∈ RESERVED_TAG_NAMESPACES)) && isidentifier first
       && forallb isidentifier (Str.split "." rest)) as Hdotted.
  { intros first rest Hfree. unfold _key_allowed.
    rewrite (split_first_component _ _ Hfree).
    destruct (bool_decide (first ∈ RESERVED_TAG_NAMESPACES)); [done|].
    cbn [forallb negb andb]. done. }
  split_and!; [|done|].
  - intros key Hfree. unfold _key_allowed. rewrite (split_dot_free _ Hfree).
    destruct (bool_decide (key ∈ RESERVED_TAG_NAMESPACES)); [done|].
    cbn [forallb negb andb]. by rewrite andb_true_r.
  - intros first reserved Hfree Hres. rewrite (Hdotted _ _ Hfree).
    assert (Str.split "." reserved = [reserved]) as ->.
    { unfold RESERVED_TAG_NAMESPACES in Hres.
      repeat (apply elem_of_cons in Hres as [->|Hres]; [done|]).
      by apply elem_of_nil in Hres. }
    cbn [forallb]. by rewrite andb_true_r.
Qed.

End TagKeys.
End TagLaws.

(** ** Validation followed by expansion, for the substitution decorators *)

Module ValidatedExpansion.
Import Substitution.

Lemma move_all_total {A} (l : list (string * string)) (d : gmap string A) :
  NoDup l.*1 ->
  (forall s, s ∈ l.*1 -> is_Some (d !! s)) ->
  exists d', move_all l d = Ok d'.
Proof.
  revert d. induction l as [|[s t] l IH]; intros d Hnd Hdom; [by exists d|].
  rewrite fmap_cons in Hnd. apply NoDup_cons in Hnd as [Hs Hnd].
  destruct (Hdom s) as [v Hv]; [by left|].
  destruct (IH (<[t := v]> (delete s d)) Hnd) as [d' Hrun].
  { intros s' Hs'. assert (s' <> s) by (intros ->; done).
    destruct (Hdom s') as [w Hw]; [by right|].
    destruct (decide (t = s')) as [->|Hne].
    - rewrite lookup_insert_eq. by eexists.
    - rewrite lookup_insert_ne, lookup_delete_ne by done. by eexists. }
  exists d'. unfold move_all. simpl. rewrite (move_key_ok _ _ _ _ Hv). exact Hrun.
Qed.

Lemma collect_total {A B} (f : A -> Result B) (l : list A) :
  (forall x, x ∈ l -> exists y, f x = Ok y) ->
  exists ys, collect f l = Ok ys /\ length ys = length l.
Proof.
  induction l as [|x l IH]; intros H; [by exists []|].
  destruct (H x) as [y Hy]; [by left|].
  destruct IH as (ys & Hys & Hlen); [intros x' Hx'; apply H; by right|].
  exists (y :: ys). simpl. rewrite Hy. simpl. rewrite Hys. simpl.
  split; [done|]. by rewrite Hlen.
Qed.

Section ValidatedExpansion.
Context {Ty : Type}.
Variable str_format : string -> list (string * string) -> Result string.
Variable rebound_inputs : Value -> Callable.

Lemma templated_ok (doc : option string) (l : list (string * list (string * string))) :
  for_each (fun '(output_name, mappings) (_ : unit) =>
              _ ← format_doc_string str_format doc output_name mappings; Ok tt) l tt = Ok tt ->
  forall output_name mapping, (output_name, mapping) ∈ l ->
    exists formatted, format_doc_string str_format doc output_name mapping = Ok formatted.
Proof.
  induction l as [|[o m] l IH]; intros Hrun o' m' Hin; [by apply elem_of_nil in Hin|].
  simpl in Hrun.
  destruct (format_doc_string str_format doc o m) as [formatted|e] eqn:Hfmt; [|done].
  simpl in Hrun. apply elem_of_cons in Hin as [[= -> ->]|Hin]; [by eexists|by apply IH].
Qed.

Lemma parameterized_inputs_validate_inv (self : parameterized_inputs) (fn : Function Ty) :
  parameterized_inputs_validate str_format self fn = Ok tt ->
  (forall output_name mapping, (output_name, mapping) ∈ parametrization self ->
     exists formatted,
       format_doc_string str_format (__doc__ fn) output_name mapping = Ok formatted) /\
  (forall output_name mapping func_param replacement_param,
     (output_name, mapping) ∈ parametrization self ->
     (func_param, replacement_param) ∈ mapping ->
     func_param ∈ (parameters fn).*1).
Proof.
  unfold parameterized_inputs_validate.
  destruct (for_each _ (parametrization self) tt) as [[]|e] eqn:Htemplated;
    [|by destruct e].
  simpl. case_bool_decide; [done|].
  match goal with |- context [filter ?P ?l] => destruct (filter P l) eqn:Hmissing end;
    [|done].
  intros _. split; [by apply templated_ok|].
  intros o m f r Hom Hfr.
  destruct (decide (f ∈ (parameters fn).*1)) as [|Hnot]; [done|].
  destruct (proj1 (SubstitutionPlural.filter_nil_iff _ _) Hmissing f); [|done].
  apply list_elem_of_In, in_concat. exists (m.*1). split.
  - apply list_elem_of_In, list_elem_of_fmap. by exists (o, m).
  - apply list_elem_of_In, list_elem_of_fmap. by exists (f, r).
Qed.

(** X29: on a node that has every parameter of the function among its
    inputs, a decorator that passed validation against the function
    expands without raising, into one node per entry: for
    [parametrized_input] always, and for [parameterized_inputs] when the
    node carries the docstring of the function and no mapping names a
    target twice. *)
Theorem validated_substitution_expands (fn : Function Ty) (node_ : Node Ty) :
  (forall p, p ∈ (parameters fn).*1 -> is_Some (input_types node_ !! p)) ->
  (forall self, parametrized_input_validate self fn = Ok tt ->
     exists nodes,
       parametrized_input_expand_node self node_ = Ok nodes /\
       length nodes = length (assigned_output self)) /\
  (forall self, parameterized_inputs_validate str_format self fn = Ok tt ->
     __doc__ fn = Some (documentation node_) ->
     (forall output_name mapping,
        (output_name, mapping) ∈ parametrization self -> NoDup mapping.*1) ->
     exists nodes,
       parameterized_inputs_expand_node str_format rebound_inputs self node_ = Ok nodes /\
       length nodes = length (parametrization self)).
Proof.
  intros Hinputs.
  assert (forall p, p ∈ (parameters fn).*1 ->
            is_Some (bare_types (input_types node_) !! p)) as Hbare.
  { intros p Hp. unfold bare_types. rewrite lookup_fmap.
    destruct (Hinputs p Hp) as [x ->]. by eexists. }
  split.
  - intros self Hvalid. unfold parametrized_input_validate in Hvalid.
    case_bool_decide as Hparam; [|done].
    destruct (Hbare _ Hparam) as [ty Hty].
    unfold parametrized_input_expand_node.
    apply collect_total.
    intros [input_column [node_name node_description]] _.
    rewrite (move_key_ok _ _ _ _ Hty). simpl. by eexists.
  - intros self Hvalid Hdoc Hnodup.
    apply parameterized_inputs_validate_inv in Hvalid as [Hformats Htargets].
    rewrite Hdoc in Hformats.
    unfold parameterized_inputs_expand_node.
    apply collect_total.
    intros [output_name mapping] Hin.
    destruct (Hformats _ _ Hin) as [formatted ->]. simpl.
    destruct (move_all_total mapping (bare_types (input_types node_))) as [d' Hrun].
    { by apply (Hnodup output_name). }
    { intros s Hs. apply Hbare.
      apply list_elem_of_fmap in Hs as ([f r] & -> & Hfr).
      by apply (Htargets output_name mapping f r). }
    unfold move_all in Hrun. rewrite Hrun. simpl. by eexists.
Qed.

End ValidatedExpansion.
End ValidatedExpansion.

(** ** Instances of the properties above *)

Lemma dict_generator_fills_fields_witness :
  exists filled,
    ExtractFieldsDicts.dict_generator
      {| ExtractFields.fields := [("a", "int"); ("b", "int")];
         ExtractFields.fill_with := SInt 0 |}
      (fun _ _ => Ok {[ "a" := SInt 7 ]}) [] ∅ = Ok filled /\
    filled !! "a" = Some (SInt 7) /\
    filled !! "b" = Some (SInt 0) /\
    filled !! "c" = None /\
    ExtractFieldsDicts.extractor_fn (fun _ => "['a', 'b']") "record" "b"
      {[ "record" := filled ]} = Ok (SInt 0).
Proof.
  destruct (ExtractFieldsDicts.dict_generator_fills_fields (fun _ => "['a', 'b']")
              {| ExtractFields.fields := [("a", "int"); ("b", "int")];
                 ExtractFields.fill_with := SInt 0 |}
              (fun _ _ => Ok {[ "a" := SInt 7 ]}) [] ∅ {[ "a" := SInt 7 ]} eq_refl)
    as [_ H].
  destruct H as (filled & Hrun & Hkeys & Hextract); [discriminate|].
  exists filled. split_and!.
  - exact Hrun.
  - by rewrite Hkeys, lookup_singleton_eq.
  - by rewrite Hkeys, lookup_singleton_ne.
  - by rewrite Hkeys, lookup_singleton_ne.
  - rewrite (Hextract "record" "b"); [|set_solver|discriminate].
    by rewrite lookup_singleton_ne.
Defined.

Lemma field_extractor_errors_witness :
  ExtractFieldsDicts.extractor_fn (fun _ => "['a']") "record" "b" ∅
    = Raise (KeyError (SStr "record")) /\
  ExtractFieldsDicts.extractor_fn (fun _ => "['a']") "record" "b"
    {[ "record" := {[ "a" := SInt 7 ]} ]}
    = Raise (InvalidDecoratorException
               "No such field: b produced by record. It only produced ['a']").
Proof.
  split.
  - apply (ExtractFieldsDicts.field_extractor_errors (fun _ => "['a']") "record" "b" ∅);
      apply lookup_empty.
  - destruct (ExtractFieldsDicts.field_extractor_errors (fun _ => "['a']") "record" "b"
                {[ "record" := {[ "a" := SInt 7 ]} ]}) as [_ H].
    + by rewrite lookup_singleton_ne.
    + destruct (H {[ "a" := SInt 7 ]}) as [Hrun _].
      * by rewrite lookup_singleton_eq.
      * by rewrite lookup_singleton_ne.
      * exact Hrun.
Defined.

Lemma does_validate_parameter_errors_witness :
  Does.validate Examples.issubclass Examples.repr_type Examples._empty_function
    Examples._empty_function_with_docstring
    {| Does.replacing_function := Examples._empty_function |} Examples.declared_sum
  = Raise (ValueError "not enough values to unpack (expected 1, got 0)") /\
  Does.validate Examples.issubclass Examples.repr_type Examples._empty_function
    Examples._empty_function_with_docstring
    {| Does.replacing_function := Examples.declared_sum |} Examples.declared_sum
  = Raise (InvalidDecoratorException
             "Too many parameters -- for now @does can only use **kwarg functions.") /\
  Does.validate Examples.issubclass Examples.repr_type Examples._empty_function
    Examples._empty_function_with_docstring
    {| Does.replacing_function := Examples.computes |} Examples.declared_sum
  = Raise (InvalidDecoratorException
             "Must have only one parameter, and that parameter must be a **kwargs parameter.").
Proof.
  split_and!.
  - apply (DoesNodes.does_validate_parameter_errors Examples.issubclass Examples.repr_type
             Examples._empty_function Examples._empty_function_with_docstring);
      reflexivity.
  - apply (DoesNodes.does_validate_parameter_errors Examples.issubclass Examples.repr_type
             Examples._empty_function Examples._empty_function_with_docstring
             {| Does.replacing_function := Examples.declared_sum |});
      [reflexivity|simpl; lia].
  - destruct (DoesNodes.does_validate_parameter_errors Examples.issubclass Examples.repr_type
             Examples._empty_function Examples._empty_function_with_docstring
             {| Does.replacing_function := Examples.computes |} Examples.declared_sum)
      as (_ & _ & H); [reflexivity|].
    apply (H "a" (Examples.positional "a" "int").2); [reflexivity|discriminate].
Defined.

Lemma does_generate_node_inputs_witness :
  let n := DoesNodes.generate_node (fun _ _ _ => Ok (VScalar (SInt 0)))
             {| Does.replacing_function := Examples.sum_kwargs |} Examples.declared_sum in
  name n = "sum_of" /\ type n = "int" /\ documentation n = "Sums the inputs" /\
  input_types n !! "a" = Some ("int", REQUIRED) /\
  input_types n !! "b" = Some ("int", REQUIRED) /\
  input_types n !! "kwargs" = None.
Proof.
  destruct (DoesNodes.does_generate_node_inputs (fun _ _ _ => Ok (VScalar (SInt 0)))
              {| Does.replacing_function := Examples.sum_kwargs |} Examples.declared_sum)
    as (Hname & Htype & _ & Hdoc & _ & Hin & Hout).
  - apply (bool_decide_unpack _). by vm_compute.
  - split_and!; [exact Hname|exact Htype|exact Hdoc| | |].
    + apply (Hin "a" (Examples.positional "a" "int").2). simpl. set_solver.
    + apply (Hin "b" (Examples.positional "b" "int").2). simpl. set_solver.
    + apply Hout. apply (bool_decide_unpack _). by vm_compute.
Defined.

Lemma validated_substitution_expands_witness :
  (exists nodes,
     Substitution.parametrized_input_expand_node SubstitutionExamples.one_input
       SubstitutionExamples.node_f = Ok nodes /\
     length nodes = 1) /\
  (exists nodes,
     Substitution.parameterized_inputs_expand_node SubstitutionExamples.keep_template
       SubstitutionExamples.no_items SubstitutionExamples.swapped
       SubstitutionExamples.node_f = Ok nodes /\
     length nodes = 1).
Proof.
  destruct (ValidatedExpansion.validated_substitution_expands
              SubstitutionExamples.keep_template SubstitutionExamples.no_items
              {| __name__ := "f"; __module__ := "my_functions";
                 __doc__ := Some "the value of {a}";
                 parameters := [Examples.positional "a" "int"; Examples.positional "b" "str"];
                 return_annotation := "int"; co_code := "|0S0" |}
              SubstitutionExamples.node_f) as [Hsingular Hplural].
  - intros p [->|[->|[]%elem_of_nil]%elem_of_cons]%elem_of_cons; by eexists.
  - split.
    + apply (Hsingular SubstitutionExamples.one_input). reflexivity.
    + apply (Hplural SubstitutionExamples.swapped).
      * reflexivity.
      * reflexivity.
      * intros output_name mapping [[= -> ->]|[]%elem_of_nil]%elem_of_cons.
        apply (bool_decide_unpack _). by vm_compute.
Defined.

Lemma dynamic_transform_validate_ok_witness :
  Does.dynamic_transform_validate Examples.issubclass "pandas.Series"
    Examples._empty_function Examples._empty_function_with_docstring
    {| __name__ := "forecast"; __module__ := "my_functions"; __doc__ := None;
       parameters := []; return_annotation := "pandas.Series";
       co_code := Bytecode.compile None (Bytecode.Return (SInt 1)) |}
  = Ok tt.
Proof.
  destruct (DoesNodes.dynamic_transform_validate_ok Examples.issubclass "pandas.Series"
              Examples._empty_function Examples._empty_function_with_docstring
              {| __name__ := "forecast"; __module__ := "my_functions"; __doc__ := None;
                 parameters := []; return_annotation := "pandas.Series";
                 co_code := Bytecode.compile None (Bytecode.Return (SInt 1)) |})
    as (_ & _ & Hcompiled).
  apply (Hcompiled "Docstring for an empty function" None (Bytecode.Return (SInt 1)));
    try reflexivity.
  by split.
Defined.
